(** * yaml-jsonpath: the path compiler and evaluator of pkg/yamlpath/path.go

    A shallow embedding of [path.go]: YAML nodes as finite trees, the lazy
    node sequences ([iter.Seq]) as the lists that [slices.Collect] observes,
    run-time panics (index out of range, [panic(err)]) as an explicit
    result type, and the compiled [Path] as the closure the Go code builds. *)

From Stdlib Require Import List String Ascii ZArith Bool Arith Lia.
Import ListNotations.

Local Open Scope string_scope.
Local Open Scope list_scope.
Local Open Scope nat_scope.

(** ** Go standard library: the string and UTF-8 functions path.go calls *)

Module utf8.

Local Open Scope Z_scope.

Definition RuneError : Z := 65533.

Definition byteZ (c : ascii) : Z := Z.of_N (N_of_ascii c).

Definition zbyte (z : Z) : ascii := ascii_of_N (Z.to_N (Z.land z 255)).

(** The [first] table together with [acceptRanges]: for a leading byte of a
    multi-byte sequence, its size and the range the second byte must lie in. *)
Definition first (s0 : Z) : option (nat * Z * Z) :=
  if (194 <=? s0) && (s0 <=? 223) then Some (2%nat, 128, 191)
  else if s0 =? 224 then Some (3%nat, 160, 191)
  else if (225 <=? s0) && (s0 <=? 236) then Some (3%nat, 128, 191)
  else if s0 =? 237 then Some (3%nat, 128, 159)
  else if (238 <=? s0) && (s0 <=? 239) then Some (3%nat, 128, 191)
  else if s0 =? 240 then Some (4%nat, 144, 191)
  else if (241 <=? s0) && (s0 <=? 243) then Some (4%nat, 128, 191)
  else if s0 =? 244 then Some (4%nat, 128, 143)
  else None.

Definition outside (lo hi b : Z) : bool := (b <? lo) || (hi <? b).

(** [utf8.DecodeRuneInString]: the first rune of [s] and its width in bytes. *)
Definition DecodeRuneInString (s : string) : Z * nat :=
  match s with
  | EmptyString => (RuneError, 0%nat)
  | String c0 t0 =>
    let s0 := byteZ c0 in
    if s0 <? 128 then (s0, 1%nat)
    else
      match first s0 with
      | None => (RuneError, 1%nat)
      | Some (sz, lo, hi) =>
        if (String.length s <? sz)%nat then (RuneError, 1%nat)
        else
          match t0 with
          | EmptyString => (RuneError, 1%nat)
          | String c1 t1 =>
            let s1 := byteZ c1 in
            if outside lo hi s1 then (RuneError, 1%nat)
            else if (sz <=? 2)%nat
            then (Z.lor (Z.shiftl (Z.land s0 31) 6) (Z.land s1 63), 2%nat)
            else
              match t1 with
              | EmptyString => (RuneError, 1%nat)
              | String c2 t2 =>
                let s2 := byteZ c2 in
                if outside 128 191 s2 then (RuneError, 1%nat)
                else if (sz <=? 3)%nat
                then (Z.lor (Z.lor (Z.shiftl (Z.land s0 15) 12)
                                   (Z.shiftl (Z.land s1 63) 6))
                            (Z.land s2 63), 3%nat)
                else
                  match t2 with
                  | EmptyString => (RuneError, 1%nat)
                  | String c3 _ =>
                    let s3 := byteZ c3 in
                    if outside 128 191 s3 then (RuneError, 1%nat)
                    else (Z.lor (Z.lor (Z.lor (Z.shiftl (Z.land s0 7) 18)
                                              (Z.shiftl (Z.land s1 63) 12))
                                       (Z.shiftl (Z.land s2 63) 6))
                                (Z.land s3 63), 4%nat)
                  end
              end
          end
      end
  end.

Definition encode3 (r : Z) : string :=
  String (zbyte (Z.lor 224 (Z.shiftr r 12)))
    (String (zbyte (Z.lor 128 (Z.land (Z.shiftr r 6) 63)))
      (String (zbyte (Z.lor 128 (Z.land r 63))) EmptyString)).

(** The conversion [string(rune)]: the UTF-8 encoding of the rune, and the
    encoding of [RuneError] for a value that is not a valid code point. *)
Definition string_of_rune (r : Z) : string :=
  if r <? 0 then encode3 RuneError
  else if r <=? 127 then String (zbyte r) EmptyString
  else if r <=? 2047
  then String (zbyte (Z.lor 192 (Z.shiftr r 6)))
         (String (zbyte (Z.lor 128 (Z.land r 63))) EmptyString)
  else if (1114111 <? r) || ((55296 <=? r) && (r <=? 57343))
  then encode3 RuneError
  else if r <=? 65535 then encode3 r
  else String (zbyte (Z.lor 240 (Z.shiftr r 18)))
         (String (zbyte (Z.lor 128 (Z.land (Z.shiftr r 12) 63)))
           (String (zbyte (Z.lor 128 (Z.land (Z.shiftr r 6) 63)))
             (String (zbyte (Z.lor 128 (Z.land r 63))) EmptyString))).

End utf8.

Module strings.

(** [s[n:]] for [n <= len(s)]. *)
Fixpoint drop (n : nat) (s : string) : string :=
  match n, s with
  | O, _ => s
  | S n', String _ s' => drop n' s'
  | S _, EmptyString => EmptyString
  end.

(** [s[:n]] for [n <= len(s)]. *)
Fixpoint take (n : nat) (s : string) : string :=
  match n, s with
  | S n', String c s' => String c (take n' s')
  | _, _ => EmptyString
  end.

Fixpoint HasPrefix (s prefix : string) : bool :=
  match prefix, s with
  | EmptyString, _ => true
  | String p prefix', String c s' => Ascii.eqb c p && HasPrefix s' prefix'
  | String _ _, EmptyString => false
  end.

Definition HasSuffix (s suffix : string) : bool :=
  (String.length suffix <=? String.length s)%nat
  && String.eqb (drop (String.length s - String.length suffix) s) suffix.

Definition TrimPrefix (s prefix : string) : string :=
  if HasPrefix s prefix then drop (String.length prefix) s else s.

Definition TrimSuffix (s suffix : string) : string :=
  if HasSuffix s suffix
  then take (String.length s - String.length suffix) s else s.

(** [strings.Split(s, sep)] for a separator of one byte. *)
Fixpoint Split (s : string) (sep : ascii) : list string :=
  match s with
  | EmptyString => [EmptyString]
  | String c s' =>
    if Ascii.eqb c sep then EmptyString :: Split s' sep
    else match Split s' sep with
         | [] => [String c EmptyString]
         | x :: xs => String c x :: xs
         end
  end.

(** [unicode.IsSpace]. *)
Definition IsSpace (r : Z) : bool :=
  (((9 <=? r) && (r <=? 13)) || (r =? 32) || (r =? 133) || (r =? 160)
  || (r =? 5760) || ((8192 <=? r) && (r <=? 8202))
  || (r =? 8232) || (r =? 8233) || (r =? 8239) || (r =? 8287) || (r =? 12288))%Z.

(** The runes of a string with the bytes each one was decoded from, as
    repeated [utf8.DecodeRuneInString] yields them. The width of a rune of
    a non-empty string is at least one, so [fuel = len(s)] always suffices. *)
Fixpoint segments (fuel : nat) (s : string) : list (Z * string) :=
  match fuel with
  | O => []
  | S fuel' =>
    match s with
    | EmptyString => []
    | String _ _ =>
      let '(r, width) := utf8.DecodeRuneInString s in
      (r, take width s) :: segments fuel' (drop width s)
    end
  end.

Definition runes (s : string) : list Z :=
  map fst (segments (String.length s) s).

Fixpoint dropWhileSpace (l : list (Z * string)) : list (Z * string) :=
  match l with
  | [] => []
  | (r, b) :: l' => if IsSpace r then dropWhileSpace l' else l
  end.

(** [strings.TrimSpace]: leading and trailing white space, as Unicode
    defines it, removed. *)
Definition TrimSpace (s : string) : string :=
  let body := dropWhileSpace (segments (String.length s) s) in
  let body := rev (dropWhileSpace (rev body)) in
  String.concat EmptyString (map snd body).

End strings.


(** ** YAML nodes (go.yaml.in/yaml/v3) *)

Module yaml.

(** [yaml.Kind]; [ZeroKind] is the zero value of an uninitialised node. *)
Inductive Kind : Set :=
| ZeroKind | DocumentNode | SequenceNode | MappingNode | ScalarNode | AliasNode.

Definition Kind_eqb (a b : Kind) : bool :=
  match a, b with
  | ZeroKind, ZeroKind | DocumentNode, DocumentNode
  | SequenceNode, SequenceNode | MappingNode, MappingNode
  | ScalarNode, ScalarNode | AliasNode, AliasNode => true
  | _, _ => false
  end.

End yaml.

(** [yaml.Node], with the fields the path engine reads. A Mapping keeps its
    keys and values interleaved in [Content] (even index: key, odd: value). *)
#[warnings="-register-all"]
Inductive Node : Type :=
  mkNode { Kind : yaml.Kind; Tag : string; Value : string; Content : list Node }.

(** ** Results of evaluation: a value, or a Go run-time panic *)

Inductive panic : Type :=
| IndexOutOfRange (index length : nat)
| NilDereference
| PanicError (err : string).

Inductive result (A : Type) : Type :=
| Ok (a : A)
| Panic (e : panic).

Arguments Ok {A} a.
Arguments Panic {A} e.

Definition bind {A B} (r : result A) (k : A -> result B) : result B :=
  match r with
  | Ok a => k a
  | Panic e => Panic e
  end.

Notation "x <- c1 ;; c2" := (bind c1 (fun x => c2))
  (at level 61, c1 at next level, right associativity).

Fixpoint mapM {A B} (g : A -> result B) (l : list A) : result (list B) :=
  match l with
  | [] => Ok []
  | a :: l' => b <- g a ;; bs <- mapM g l' ;; Ok (b :: bs)
  end.

(** [s[i]] on a slice: a run-time panic when [i] is out of range. *)
Definition indexNode (s : list Node) (i : nat) : result Node :=
  match nth_error s i with
  | Some n => Ok n
  | None => Panic (IndexOutOfRange i (List.length s))
  end.

(** The pairs [(i, n)] that [for i, n := range s] goes through. *)
Fixpoint enumerateFrom {A} (i : nat) (s : list A) : list (nat * A) :=
  match s with
  | [] => []
  | a :: s' => (i, a) :: enumerateFrom (S i) s'
  end.

Definition enumerate {A} (s : list A) : list (nat * A) := enumerateFrom 0 s.

(** [for i, n := range s { if cond(i, n) { return body(i, n) } }; return final] *)
Fixpoint rangeReturn {A B} (cond : nat -> A -> bool) (body : nat -> A -> B)
    (final : B) (s : list (nat * A)) : B :=
  match s with
  | [] => final
  | (i, n) :: s' => if cond i n then body i n else rangeReturn cond body final s'
  end.

(** [for i, n := range s { if cond(i, n) { its = append(its, body(i, n)) } }] *)
Fixpoint rangeAppend {A B} (cond : nat -> A -> bool) (body : nat -> A -> result B)
    (s : list (nat * A)) : result (list B) :=
  match s with
  | [] => Ok []
  | (i, n) :: s' =>
    if cond i n
    then b <- body i n ;; bs <- rangeAppend cond body s' ;; Ok (b :: bs)
    else rangeAppend cond body s'
  end.

(** ** Sequences of nodes and compiled paths *)

(** [iter.Seq[*yaml.Node]], as the list of the nodes it yields. *)
Definition Seq : Type := list Node.

(** [Path]: a compiled YAML path expression. *)
Record Path : Type := new { f : Node -> Node -> result Seq }.

Definition error : Type := string.

Definition flatten (i : list Seq) : Seq := List.concat i.

Definition lift (nodes : list Node) : Seq := nodes.

(** [recurse(n)] for one node: what [recurse(n.Content...)] yields, then [n]. *)
Fixpoint recurseNode (n : Node) : Seq :=
  match n with
  | mkNode _ _ _ content =>
    (fix recurse (nodes : list Node) : Seq :=
       match nodes with
       | [] => []
       | m :: nodes' => recurseNode m ++ recurse nodes'
       end) content ++ [n]
  end.

(** [recurse(nodes...)]: for each node in turn, its content recursively and
    then the node itself. *)
Fixpoint recurse (nodes : list Node) : Seq :=
  match nodes with
  | [] => []
  | n :: nodes' => recurseNode n ++ recurse nodes'
  end.

(** ** Lexemes and the lexer interface *)

(** Modelled from the spec: the lexeme kinds, which lexer.go declares.
    path.go names the kinds up to [lexemeArraySubscriptPropertyName]; the
    kinds after it are the filter-internal ones the data model lists. *)
Inductive lexemeType : Set :=
| lexemeError | lexemeIdentity | lexemeEOF | lexemeRoot
| lexemeDotChild | lexemeUndottedChild | lexemeBracketChild
| lexemeArraySubscript | lexemeRecursiveDescent
| lexemeFilterBegin | lexemeRecursiveFilterBegin | lexemeFilterEnd
| lexemePropertyName | lexemeBracketPropertyName
| lexemeArraySubscriptPropertyName
| lexemeFilterAt | lexemeFilterIntegerLiteral | lexemeFilterFloatLiteral
| lexemeFilterStringLiteral | lexemeFilterBooleanLiteral
| lexemeFilterNullLiteral | lexemeFilterRegularExpressionLiteral
| lexemeFilterEquality | lexemeFilterInequality
| lexemeFilterLessThan | lexemeFilterLessThanOrEqual
| lexemeFilterGreaterThan | lexemeFilterGreaterThanOrEqual
| lexemeFilterMatchesRegularExpression
| lexemeFilterAnd | lexemeFilterOr | lexemeFilterNot
| lexemeFilterOpenBracket | lexemeFilterCloseBracket.

(** Modelled from the spec: a lexeme, with the two fields path.go reads. *)
Record lexeme : Set := mkLexeme { typ : lexemeType; val : string }.

(** Modelled from the spec: the state of a lexer, a type of lexer.go, is
    the stream of lexemes it has still to emit; once the stream is exhausted
    [nextLexeme] keeps returning EOF. *)
Definition lexer : Set := list lexeme.

Definition nextLexeme (l : lexer) : lexeme * lexer :=
  match l with
  | [] => (mkLexeme lexemeEOF EmptyString, [])
  | lx :: l' => (lx, l')
  end.

(** Modelled from the spec: the constant [propertyName] (declared in
    lexer.go), the [~] that ends a property-name step. *)
Definition propertyName : string := "~".

(** The rune constant [eof], which lexer.go declares: the conventional
    value outside the range of runes. [balanced] only compares it with a
    backslash. *)
Definition eof : Z := (-1)%Z.

(** ** The slice parser *)

Module Slice.

Local Open Scope Z_scope.

Definition digit (c : ascii) : option Z :=
  let n := utf8.byteZ c in
  if (48 <=? n) && (n <=? 57) then Some (n - 48) else None.

Fixpoint digits (s : string) (acc : Z) : option Z :=
  match s with
  | EmptyString => Some acc
  | String c s' =>
    match digit c with
    | Some d => digits s' (10 * acc + d)
    | None => None
    end
  end.

(** A decimal integer with an optional sign. *)
Definition parseInt (s : string) : option Z :=
  match s with
  | EmptyString => None
  | String c s' =>
    if Ascii.eqb c "-" then
      match s' with
      | EmptyString => None
      | _ => option_map Z.opp (digits s' 0)
      end
    else if Ascii.eqb c "+" then
      match s' with
      | EmptyString => None
      | _ => digits s' 0
      end
    else digits s 0
  end.

(** An omitted bound or step is [Some None]; text that is no integer is
    [None]. *)
Definition optInt (s : string) : option (option Z) :=
  match s with
  | EmptyString => Some None
  | _ => option_map Some (parseInt s)
  end.

Definition clamp (lo hi x : Z) : Z := Z.max lo (Z.min hi x).

Definition normalize (L x : Z) : Z := if x <? 0 then x + L else x.

(** [a, a+s, a+2s, ...] while below [b] (for [s > 0]) or above [b] (for
    [s < 0]); an index outside [[0, L)] is dropped. *)
Definition indices (a b s L : Z) : list Z :=
  let count :=
    if 0 <? s then (if a <? b then (b - a + s - 1) / s else 0)
    else (if b <? a then (a - b + (- s) - 1) / (- s) else 0) in
  List.filter (fun i => (0 <=? i) && (i <? L))
    (List.map (fun k => a + Z.of_nat k * s) (List.seq 0 (Z.to_nat count))).

Definition range (a b : option Z) (s L : Z) : list Z :=
  let a := match a with
           | Some a => a
           | None => if 0 <? s then 0 else L - 1
           end in
  let b := match b with
           | Some b => b
           | None => if 0 <? s then L else - L - 1
           end in
  let lo := if 0 <? s then 0 else -1 in
  let hi := if 0 <? s then L else L - 1 in
  indices (clamp lo hi (normalize L a)) (clamp lo hi (normalize L b)) s L.

(** One member of a union: an integer or a range. *)
Definition member (index : string) (L : Z) : error + list Z :=
  match strings.Split index ":" with
  | [n] =>
    match parseInt n with
    | Some n => inr (indices (normalize L n) (normalize L n + 1) 1 L)
    | None => inl "invalid array index"
    end
  | a :: b :: more =>
    match optInt a, optInt b,
          (match more with
           | [] => Some None
           | [s] => optInt s
           | _ => None
           end) with
    | Some a, Some b, Some s =>
      let s := match s with Some s => s | None => 1 end in
      if s =? 0 then inl "array index step value must be non-zero"
      else inr (range a b s L)
    | _, _, _ => inl "invalid array index"
    end
  | [] => inl "invalid array index"
  end.

Fixpoint union (members : list string) (L : Z) : error + list Z :=
  match members with
  | [] => inr []
  | m :: members' =>
    match member m L, union members' L with
    | inr i, inr j => inr (i ++ j)
    | inl e, _ => inl e
    | _, inl e => inl e
    end
  end.

End Slice.

(** Modelled from the spec: [slice], the function of slice.go, which
    materializes a subscript into the list of indices it selects in a
    sequence of the given length: [*], one integer, a range
    [start:end:step] with any part omitted, or a union of integers and
    ranges; a step of zero is an error. *)
Definition slice (index : string) (length : nat) : error + list Z :=
  if String.eqb index "*"
  then inr (Slice.indices 0 (Z.of_nat length) 1 (Z.of_nat length))
  else Slice.union (strings.Split index ",") (Z.of_nat length).

(** Modelled from the spec: what the lexer of lexer.go emits for a bracket that holds neither a filter nor quoted child names.
    The bracket is parsed as an array subscript: an ArraySubscript lexeme
    when the slice parser accepts the subscript, and an Error lexeme, whose
    text is the message, when the slice is invalid. *)
Definition lexArraySubscript (text : string) : lexeme :=
  let subscript := strings.TrimSuffix (strings.TrimPrefix text "[") "]" in
  match slice subscript 0 with
  | inl err => mkLexeme lexemeError err
  | inr _ => mkLexeme lexemeArraySubscript text
  end.

(** ** The matchers of path.go *)

(** [type filter func(node, root *yaml.Node) bool]. *)
Definition Filter : Type := Node -> Node -> bool.

Definition identity (node root : Node) : result Seq :=
  if yaml.Kind_eqb (Kind node) yaml.ZeroKind then Ok (lift [])
  else Ok (lift [node]).

Definition empty (node root : Node) : result Seq := Ok (lift []).

Definition compose (i : Seq) (p : Path) (root : Node) : result Seq :=
  its <- mapM (fun a => f p a root) i ;;
  Ok (flatten its).

Fixpoint unescapeLoop (raw : list Z) (esc : string) (escaped : bool) : string :=
  match raw with
  | [] => esc
  | rune :: raw' =>
    if (rune =? 92)%Z
    then unescapeLoop raw'
           (if escaped then (esc ++ utf8.string_of_rune rune)%string else esc)
           (negb escaped)
    else unescapeLoop raw' (esc ++ utf8.string_of_rune rune)%string false
  end.

Definition unescape (raw : string) : string :=
  unescapeLoop (strings.runes raw) EmptyString false.

Fixpoint balancedLoop (c : list (Z * string)) (q : Z) (i : nat) (bal : bool)
    (prev : Z) : bool :=
  match c with
  | [] => bal
  | (rune, bytes) :: c' =>
    let i := i + String.length bytes in
    if (rune =? q)%Z
    then if (0 <? i)%nat && (prev =? 92)%Z
         then balancedLoop c' q i bal rune
         else balancedLoop c' q i (negb bal) rune
    else balancedLoop c' q i bal rune
  end.

Definition balanced (c : string) (q : Z) : bool :=
  balancedLoop (strings.segments (String.length c) c) q 0 true eof.

(** The first loop of [bracketChildNames]: child names with embedded commas
    are put together again. *)
Fixpoint reconstitute (s : list string) (children : list string)
    (accum : string) : list string * string :=
  match s with
  | [] => (children, accum)
  | c :: s' =>
    if balanced c 39 && balanced c 34
    then if negb (String.eqb accum EmptyString)
         then reconstitute s' children (accum ++ "," ++ c)%string
         else reconstitute s' (children ++ [c]) EmptyString
    else if String.eqb accum EmptyString
         then reconstitute s' children c
         else reconstitute s' (children ++ [(accum ++ "," ++ c)%string]) EmptyString
  end.

(** The one-character string holding a double quote. *)
Definition dquote : string := String (ascii_of_nat 34) EmptyString.

Definition unquote (c : string) : string :=
  let c := strings.TrimSpace c in
  let c := if strings.HasPrefix c "'"
           then strings.TrimSuffix (strings.TrimPrefix c "'") "'"
           else strings.TrimSuffix (strings.TrimPrefix c dquote) dquote in
  unescape c.

Definition bracketChildNames (childNames : string) : list string :=
  let s := strings.Split childNames "," in
  let '(children, accum) := reconstitute s [] EmptyString in
  let children :=
    if negb (String.eqb accum EmptyString) then children ++ [accum] else children in
  List.map unquote children.

Definition isMapping (node : Node) : bool :=
  yaml.Kind_eqb (Kind node) yaml.MappingNode.

Definition isSequence (node : Node) : bool :=
  yaml.Kind_eqb (Kind node) yaml.SequenceNode.

Definition propertyNameChildThen (childName : string) (p : Path) : Path :=
  let childName := unescape childName in
  new (fun node root =>
    if negb (isMapping node) then empty node root
    else
      rangeReturn
        (fun i n => (i mod 2 =? 0) && String.eqb (Value n) childName)
        (fun i _ => c <- indexNode (Content node) i ;; compose (lift [c]) p root)
        (empty node root)
        (enumerate (Content node))).

Definition propertyNameBracketChildThen (childNames : string) (p : Path) : Path :=
  let unquotedChildren := bracketChildNames childNames in
  new (fun node root =>
    if negb (isMapping node) then empty node root
    else
      its <- mapM (fun childName =>
               rangeAppend
                 (fun i n => (i mod 2 =? 0) && String.eqb (Value n) childName)
                 (fun i _ => c <- indexNode (Content node) i ;; Ok (lift [c]))
                 (enumerate (Content node)))
             unquotedChildren ;;
      compose (flatten (List.concat its)) p root).

Definition propertyNameArraySubscriptThen (subscript : string) (p : Path) : Path :=
  new (fun node root =>
    if isMapping node && String.eqb subscript "*"
    then
      its <- rangeAppend (fun i _ => negb (negb (i mod 2 =? 0)))
               (fun _ n => compose (lift [n]) p root)
               (enumerate (Content node)) ;;
      Ok (flatten its)
    else empty node root).

Definition allChildrenThen (p : Path) : Path :=
  new (fun node root =>
    match Kind node with
    | yaml.MappingNode =>
      its <- rangeAppend (fun i _ => negb (i mod 2 =? 0))
               (fun _ n => compose (lift [n]) p root)
               (enumerate (Content node)) ;;
      Ok (flatten its)
    | yaml.SequenceNode =>
      its <- rangeAppend (fun _ _ => true)
               (fun i _ => c <- indexNode (Content node) i ;;
                           compose (lift [c]) p root)
               (enumerate (Content node)) ;;
      Ok (flatten its)
    | _ => empty node root
    end).

Definition childThen (childName : string) (p : Path) : Path :=
  if String.eqb childName "*" then allChildrenThen p
  else
    let childName := unescape childName in
    new (fun node root =>
      if negb (isMapping node) then empty node root
      else
        rangeReturn
          (fun i n => (i mod 2 =? 0) && String.eqb (Value n) childName)
          (fun i _ => c <- indexNode (Content node) (i + 1) ;;
                      compose (lift [c]) p root)
          (empty node root)
          (enumerate (Content node))).

Definition bracketChildThen (childNames : string) (p : Path) : Path :=
  let unquotedChildren := bracketChildNames childNames in
  new (fun node root =>
    if negb (isMapping node) then empty node root
    else
      its <- mapM (fun childName =>
               rangeAppend
                 (fun i n => (i mod 2 =? 0) && String.eqb (Value n) childName)
                 (fun i _ => c <- indexNode (Content node) (i + 1) ;;
                             Ok (lift [c]))
                 (enumerate (Content node)))
             unquotedChildren ;;
      compose (flatten (List.concat its)) p root).

Definition arraySubscriptThen (subscript : string) (p : Path) : Path :=
  new (fun node root =>
    if isMapping node && String.eqb subscript "*"
    then
      its <- rangeAppend (fun i _ => negb (i mod 2 =? 0))
               (fun _ n => compose (lift [n]) p root)
               (enumerate (Content node)) ;;
      Ok (flatten its)
    else if negb (isSequence node) then empty node root
    else
      match slice subscript (List.length (Content node)) with
      | inl err => Panic (PanicError err)
      | inr slice =>
        its <- rangeAppend
                 (fun _ s => (0 <=? s)%Z
                             && (s <? Z.of_nat (List.length (Content node)))%Z)
                 (fun _ s => c <- indexNode (Content node) (Z.to_nat s) ;;
                             compose (lift [c]) p root)
                 (enumerate slice) ;;
        Ok (flatten its)
      end).

(** [Find] applies the Path to a YAML node; the error it returns is always
    nil. *)
Definition find (p : Path) (node root : Node) : result (list Node) :=
  f p node root.

Definition Find (p : Path) (node : Node) : result (list Node * option error) :=
  r <- find p node node ;; Ok (r, None).

(** ** The path compiler *)

(** The loop of [newPath] that collects the lexemes of a filter, up to the
    end of the filter that brings the nesting level back to zero: the error
    it stops with, or the collected lexemes and the lexer state after the
    loop. [newPath] below runs the same loop in place. *)
Fixpoint filterLexemesLoop (l : lexer) (filterLexemes : list lexeme)
    (filterNestingLevel : Z) : error + list lexeme * lexer :=
  match l with
  | [] => inl "missing end of filter"
  | lx :: l =>
    match typ lx with
    | lexemeFilterBegin =>
      filterLexemesLoop l (filterLexemes ++ [lx]) (filterNestingLevel + 1)%Z
    | lexemeFilterEnd =>
      if (filterNestingLevel - 1 =? 0)%Z then inr (filterLexemes, l)
      else filterLexemesLoop l (filterLexemes ++ [lx]) (filterNestingLevel - 1)%Z
    | lexemeError => inl (val lx)
    | lexemeEOF => inl "missing end of filter"
    | _ => filterLexemesLoop l (filterLexemes ++ [lx]) filterNestingLevel
    end
  end.

Section Compile.

(** The lexer and the filter compiler are those of lexer.go, filter.go and
    filter_parser.go: the path compiler is taken over any lexer [lex] and
    any filter compiler [newFilterNode], [newFilter]. *)
Variable lex : string -> string -> lexer.
Variable filterNode : Type.
Variable newFilterNode : list lexeme -> filterNode.
Variable newFilter : filterNode -> Filter.

Definition filterThen (filterLexemes : list lexeme) (p : Path) : Path :=
  let filter := newFilter (newFilterNode filterLexemes) in
  new (fun node root =>
    its <- (if isSequence node
            then rangeAppend (fun _ c => filter c root)
                   (fun _ c => compose (lift [c]) p root)
                   (enumerate (Content node))
            else if filter node root
                 then s <- compose (lift [node]) p root ;; Ok [s]
                 else Ok []) ;;
    Ok (flatten its)).

Definition recursiveFilterThen (filterLexemes : list lexeme) (p : Path) : Path :=
  let filter := newFilter (newFilterNode filterLexemes) in
  new (fun node root =>
    its <- (if filter node root
            then s <- compose (lift [node]) p root ;; Ok [s]
            else Ok []) ;;
    Ok (flatten its)).

(** What a step does with the sub-path and the error that the recursive
    [newPath] returned: [if err != nil { return nil, err }], and otherwise
    the sub-path is captured by the step's closure. A nil sub-path would
    panic once the closure calls its [f]. *)
Definition deref (p : option Path) : Path :=
  match p with
  | Some p => p
  | None => new (fun _ _ => Panic NilDereference)
  end.

Definition withSubPath (sub : option Path * option error)
    (k : Path -> Path) : option Path * option error :=
  let '(subPath, err) := sub in
  match err with
  | Some err => (None, Some err)
  | None => (Some (k (deref subPath)), None)
  end.

Fixpoint newPath (l : lexer) : option Path * option error :=
  match l with
  | [] => (Some (new identity), None)
  | lx :: l =>
    match typ lx with
    | lexemeError => (None, Some (val lx))
    | lexemeIdentity | lexemeEOF => (Some (new identity), None)
    | lexemeRoot =>
      withSubPath (newPath l) (fun subPath =>
        new (fun node root =>
          node <- (if yaml.Kind_eqb (Kind node) yaml.DocumentNode
                   then indexNode (Content node) 0 else Ok node) ;;
          compose (lift [node]) subPath root))
    | lexemeRecursiveDescent =>
      withSubPath (newPath l) (fun subPath =>
        let childName := strings.TrimPrefix (val lx) ".." in
        if String.eqb childName "*"
        then new (fun node root =>
               compose (recurse [node]) (allChildrenThen subPath) root)
        else if String.eqb childName EmptyString
        then new (fun node root => compose (recurse [node]) subPath root)
        else new (fun node root =>
               compose (recurse [node]) (childThen childName subPath) root))
    | lexemeDotChild =>
      withSubPath (newPath l) (fun subPath =>
        let childName := strings.TrimPrefix (val lx) "." in
        childThen childName subPath)
    | lexemeUndottedChild =>
      withSubPath (newPath l) (fun subPath => childThen (val lx) subPath)
    | lexemeBracketChild =>
      withSubPath (newPath l) (fun subPath =>
        let childNames := strings.TrimSpace (val lx) in
        let childNames :=
          strings.TrimSuffix (strings.TrimPrefix childNames "[") "]" in
        let childNames := strings.TrimSpace childNames in
        bracketChildThen childNames subPath)
    | lexemeArraySubscript =>
      withSubPath (newPath l) (fun subPath =>
        let subscript :=
          strings.TrimSuffix (strings.TrimPrefix (val lx) "[") "]" in
        arraySubscriptThen subscript subPath)
    | lexemeFilterBegin | lexemeRecursiveFilterBegin =>
      let recursive :=
        match typ lx with lexemeRecursiveFilterBegin => true | _ => false end in
      (fix loop (l : lexer) (filterLexemes : list lexeme)
           (filterNestingLevel : Z) {struct l} : option Path * option error :=
         match l with
         | [] => (None, Some "missing end of filter")
         | lx :: l =>
           match typ lx with
           | lexemeFilterBegin =>
             loop l (filterLexemes ++ [lx]) (filterNestingLevel + 1)%Z
           | lexemeFilterEnd =>
             if (filterNestingLevel - 1 =? 0)%Z
             then
               withSubPath (newPath l) (fun subPath =>
                 if recursive then recursiveFilterThen filterLexemes subPath
                 else filterThen filterLexemes subPath)
             else loop l (filterLexemes ++ [lx]) (filterNestingLevel - 1)%Z
           | lexemeError => (None, Some (val lx))
           | lexemeEOF => (None, Some "missing end of filter")
           | _ => loop l (filterLexemes ++ [lx]) filterNestingLevel
           end
         end) l [] 1%Z
    | lexemePropertyName =>
      withSubPath (newPath l) (fun subPath =>
        let childName := strings.TrimPrefix (val lx) "." in
        let childName := strings.TrimSuffix childName propertyName in
        propertyNameChildThen childName subPath)
    | lexemeBracketPropertyName =>
      withSubPath (newPath l) (fun subPath =>
        let childNames := strings.TrimSpace (val lx) in
        let childNames := strings.TrimSuffix childNames propertyName in
        let childNames :=
          strings.TrimSuffix (strings.TrimPrefix childNames "[") "]" in
        let childNames := strings.TrimSpace childNames in
        propertyNameBracketChildThen childNames subPath)
    | lexemeArraySubscriptPropertyName =>
      withSubPath (newPath l) (fun subPath =>
        let subscript :=
          strings.TrimSuffix (strings.TrimPrefix (val lx) "[") "]~" in
        propertyNameArraySubscriptThen subscript subPath)
    | _ => (None, Some "invalid path syntax")
    end
  end.

(** [NewPath] constructs a Path from a string expression. *)
Definition NewPath (path : string) : option Path * option error :=
  newPath (lex "Path lexer" path).

End Compile.

(** ** Reading a tree: keys, values, descendants *)

(** Every other element of a list, starting with the first one or with the
    second one. *)
Fixpoint alternate {A} (take : bool) (l : list A) : list A :=
  match l with
  | [] => []
  | a :: l' => if take then a :: alternate false l' else alternate true l'
  end.

(** The key nodes of the content of a Mapping: the even indices. *)
Definition keys (content : list Node) : list Node := alternate true content.

(** The value nodes of the content of a Mapping: the odd indices. *)
Definition values (content : list Node) : list Node := alternate false content.

(** The key/value pairs of the content of a Mapping, in document order. *)
Fixpoint pairs (content : list Node) : list (Node * Node) :=
  match content with
  | k :: v :: rest => (k, v) :: pairs rest
  | _ => []
  end.

(** The value node of every key equal to [name], in document order. *)
Definition valuesOf (content : list Node) (name : string) : list Node :=
  List.map snd
    (List.filter (fun kv => String.eqb (Value (fst kv)) name) (pairs content)).

(** [subnode n d]: [n] is in the tree of [d], as [d] itself or as one of its
    transitive descendants. *)
Inductive subnode : Node -> Node -> Prop :=
| subnode_self (d : Node) : subnode d d
| subnode_content (n c d : Node) :
    In c (Content d) -> subnode n c -> subnode n d.

(** [c] is a value of the Mapping [m] or an element of the Sequence [m]. *)
Definition childOf (c m : Node) : Prop :=
  (Kind m = yaml.MappingNode /\ In c (values (Content m)))
  \/ (Kind m = yaml.SequenceNode /\ In c (Content m)).

(** Feeding each node of a sequence through a path in order, the results
    appended: what [compose] computes. *)
Definition feed (nodes : list Node) (p : Path) (root : Node) : result Seq :=
  its <- mapM (fun a => f p a root) nodes ;; Ok (List.concat its).

(** The nodes a matcher keeps, each fed through the next path. *)
Definition keep (test : Node -> bool) (nodes : list Node) (p : Path)
    (root : Node) : result Seq :=
  feed (List.filter test nodes) p root.

(** The nodes [.*] selects below one node: the values of a Mapping, the
    elements of a Sequence. *)
Definition children (n : Node) : list Node :=
  match Kind n with
  | yaml.MappingNode => values (Content n)
  | yaml.SequenceNode => Content n
  | _ => []
  end.

(** A node that is not the zero value of [yaml.Node]. *)
Definition initialised (n : Node) : bool :=
  negb (yaml.Kind_eqb (Kind n) yaml.ZeroKind).

(** The flag [recursive] of [newPath]: the filter was opened by a
    RecursiveFilterBegin lexeme. *)
Definition isRecursive (lx : lexeme) : bool :=
  match typ lx with lexemeRecursiveFilterBegin => true | _ => false end.

(** A lexeme after which [newPath] goes on reading. *)
Definition continues (lx : lexeme) : bool :=
  match typ lx with
  | lexemeEOF | lexemeIdentity => false
  | _ => true
  end.

(** No byte of [s] is the byte [c]. *)
Fixpoint free (c : ascii) (s : string) : bool :=
  match s with
  | EmptyString => true
  | String b s' => negb (Ascii.eqb b c) && free c s'
  end.

(** A byte of a plain child name: an ASCII byte that is no quote, no
    backslash and no comma. *)
Definition plainByte (c : ascii) : bool :=
  let b := utf8.byteZ c in
  ((b <? 128) && negb (b =? 39) && negb (b =? 34) && negb (b =? 92)
   && negb (b =? 44))%Z.

Fixpoint plain (s : string) : bool :=
  match s with
  | EmptyString => true
  | String c s' => plainByte c && plain s'
  end.

(** A child name as the path writes it, between single quotes, and a list
    of names as a bracket child holds it: ['n1','n2',...] without the
    brackets. *)
Definition quoted (name : string) : string := ("'" ++ name ++ "'")%string.

Definition listed (names : list string) : string :=
  String.concat "," (List.map quoted names).

(** One segment per byte: the runes of a string of ASCII bytes. *)
Fixpoint byteSegments (s : string) : list (Z * string) :=
  match s with
  | EmptyString => []
  | String c s' => (utf8.byteZ c, String c EmptyString) :: byteSegments s'
  end.

Fixpoint asciiOnly (s : string) : bool :=
  match s with
  | EmptyString => true
  | String c s' => (utf8.byteZ c <? 128)%Z && asciiOnly s'
  end.

(** The text between the brackets of an array subscript. *)
Definition subscriptOf (text : string) : string :=
  strings.TrimSuffix (strings.TrimPrefix text "[") "]".

(** A definite outcome of the compiler: a Path and no error, or no Path and
    an error. *)
Definition definite (r : option Path * option error) : Prop :=
  (exists p, r = (Some p, None)) \/ (exists e, r = (None, Some e)).

(** ** Comparison filters *)

Section Comparison.

(** The typed values of filter evaluation (int, float, bool, null, string,
    node) and the concrete comparison of two of them ([==], [<], ...). *)
Variable value : Type.
Variable compare : value -> value -> bool.

Definition isEmpty (l : list value) : bool :=
  match l with [] => true | _ => false end.

(** Modelled from the spec: the evaluation of a comparison, a function of
    filter.go, over the two lists of values its sides were lifted to. True
    iff the list on the left is non-empty, the list on the right is
    non-empty, and the comparison holds for every [l] on the left and every
    [r] on the right. *)
Definition compareAll (left right : list value) : bool :=
  negb (isEmpty left) && negb (isEmpty right)
  && List.forallb (fun l => List.forallb (fun r => compare l r) right) left.

(** Modelled from the spec: a comparison filter of filter.go over its two
    sides, each lifting a [(context, root)] pair to a list of values. *)
Definition comparisonFilter (lhs rhs : Node -> Node -> list value) : Filter :=
  fun node root => compareAll (lhs node root) (rhs node root).

End Comparison.

(** ** Sample documents *)

Definition scalar (v : string) : Node :=
  mkNode yaml.ScalarNode "!!str" v [].

Definition mapping (content : list Node) : Node :=
  mkNode yaml.MappingNode "!!map" EmptyString content.

Definition sequence (content : list Node) : Node :=
  mkNode yaml.SequenceNode "!!seq" EmptyString content.

Definition document (content : list Node) : Node :=
  mkNode yaml.DocumentNode EmptyString EmptyString content.

(** [{a: 1, a: 2}]: a mapping in which the key [a] occurs twice. *)
Definition twice : Node :=
  mapping [scalar "a"; scalar "1"; scalar "a"; scalar "2"].

(** Two names, the first made of x, a double quote and y, the second z;
    and the mapping that has the first as the key of 1 and the second as
    the key of 2. *)
Definition doubleQuotedNames : list string :=
  [("x" ++ dquote ++ "y")%string; "z"].

Definition doubleQuoted : Node :=
  mapping [scalar ("x" ++ dquote ++ "y"); scalar "1"; scalar "z"; scalar "2"].

(** [{"a,b": 1, c: 2, "a,b": 3}]: a key with a comma, twice. *)
Definition commas : Node :=
  mapping [scalar "a,b"; scalar "1"; scalar "c"; scalar "2";
           scalar "a,b"; scalar "3"].

(** [{a: [x, y], b: 1}]. *)
Definition sample : Node :=
  mapping [scalar "a"; sequence [scalar "x"; scalar "y"]; scalar "b"; scalar "1"].

(** The document of the README example: a Deployment with two containers. *)
Definition container (name port : string) : Node :=
  mapping [scalar "name"; scalar name; scalar "image"; scalar name;
           scalar "ports";
           sequence [mapping [scalar "containerPort"; scalar port]]].

Definition deployment : Node :=
  document
    [mapping
       [scalar "kind"; scalar "Deployment";
        scalar "spec";
        mapping [scalar "containers";
                 sequence [container "nginx" "80"; container "nginy" "81"]]]].

(** A filter compiler for examples: its filter keeps the nodes of non-empty
    value. *)
Definition sampleFilter (_ : list lexeme) : Filter :=
  fun node _ => negb (String.eqb (Value node) EmptyString).

(** The values of the nodes a path finds, for a path given by its lexemes. *)
Definition found (l : lexer) (node : Node) : option (list string) :=
  match newPath (list lexeme) (fun l => l) sampleFilter l with
  | (Some p, None) =>
    match Find p node with
    | Ok (r, None) => Some (List.map Value r)
    | _ => None
    end
  | _ => None
  end.

(** ** The claims as the specification words them, where the code differs *)

(** The recursive descent emits the current node first and its transitive
    descendants after it. *)
Definition currentNodeFirst (n : Node) : Prop :=
  recurse [n] = n :: recurse (Content n).

(** The matcher of [..*] returns every node of the tree of [d]. *)
Definition returnsEveryNode (p : Path) (d : Node) : Prop :=
  forall n, subnode n d ->
    exists r, Find p d = Ok (r, None) /\ In n r.

(** ** What the matchers select, and when evaluation is safe *)

(** The key nodes of the content of a Mapping that are equal to [name], in
    document order. *)
Definition keysNamed (content : list Node) (name : string) : list Node :=
  List.filter (fun k => String.eqb (Value k) name) (keys content).

(** The value of the first key of a Mapping equal to [name], if any. *)
Definition firstValue (m : Node) (name : string) : list Node :=
  if isMapping m then List.firstn 1 (valuesOf (Content m) name) else [].

(** The elements of [content] at the indices of [idx], in the order of
    [idx]; an index outside [[0, len(content))] selects nothing. *)
Definition select (content : list Node) (idx : list Z) : list Node :=
  List.flat_map
    (fun s =>
       if (0 <=? s)%Z && (s <? Z.of_nat (List.length content))%Z
       then match nth_error content (Z.to_nat s) with
            | Some c => [c]
            | None => []
            end
       else [])
    idx.

(** A backslash put before every backslash, single quote and double quote
    of a string: the escapes that [unescape] undoes. *)
Fixpoint escape (s : string) : string :=
  match s with
  | EmptyString => EmptyString
  | String c s' =>
    if ((utf8.byteZ c =? 92) || (utf8.byteZ c =? 39) || (utf8.byteZ c =? 34))%Z
    then String "\" (String c (escape s'))
    else String c (escape s')
  end.

(** A byte of a simple child name: an ASCII byte that is no quote and no
    backslash; a comma is allowed. *)
Definition simpleByte (c : ascii) : bool :=
  let b := utf8.byteZ c in
  ((b <? 128) && negb (b =? 39) && negb (b =? 34) && negb (b =? 92))%Z.

Fixpoint simple (s : string) : bool :=
  match s with
  | EmptyString => true
  | String c s' => simpleByte c && simple s'
  end.

(** A lexeme of a step that holds no filter: [newPath] compiles the rest of
    the stream and wraps the sub-path. *)
Definition isStep (lx : lexeme) : bool :=
  match typ lx with
  | lexemeRoot | lexemeRecursiveDescent | lexemeDotChild
  | lexemeUndottedChild | lexemeBracketChild | lexemeArraySubscript
  | lexemePropertyName | lexemeBracketPropertyName
  | lexemeArraySubscriptPropertyName => true
  | _ => false
  end.

Definition isFilterBegin (lx : lexeme) : bool :=
  match typ lx with lexemeFilterBegin => true | _ => false end.

Definition isFilterEnd (lx : lexeme) : bool :=
  match typ lx with lexemeFilterEnd => true | _ => false end.

(** A lexeme the filter loop collects: neither an Error nor an EOF. *)
Definition collected (lx : lexeme) : bool :=
  match typ lx with lexemeError | lexemeEOF => false | _ => true end.

(** Every node a path yields from a node [n] is an initialised node of the
    tree of [n]. *)
Definition sound (p : Path) : Prop :=
  forall n root r,
    f p n root = Ok r ->
    Forall (fun x => subnode x n /\ initialised x = true) r.

(** A tree as the YAML parser builds it: every Document has a root value
    and every Mapping holds its keys and values in pairs. *)
Fixpoint wellFormed (n : Node) : bool :=
  match n with
  | mkNode kind _ _ content =>
    match kind with
    | yaml.DocumentNode => negb (List.length content =? 0)
    | yaml.MappingNode => Nat.even (List.length content)
    | _ => true
    end
    && (fix all (l : list Node) : bool :=
          match l with
          | [] => true
          | c :: l' => wellFormed c && all l'
          end) content
  end.

(** An array subscript that [slice] materializes without an error, whatever
    the length of the sequence. *)
Definition accepted (subscript : string) : Prop :=
  forall length, exists idx, slice subscript length = inr idx.

(** A lexeme stream whose array subscripts are all accepted. *)
Definition acceptedSubscripts (l : lexer) : Prop :=
  Forall (fun lx => typ lx = lexemeArraySubscript ->
                    accepted (subscriptOf (val lx))) l.

(** A path that yields a list of nodes, without a panic, on every
    well-formed node. *)
Definition safe (p : Path) : Prop :=
  forall n root, wellFormed n = true -> exists r, f p n root = Ok r.

(** * Properties *)

(** ** The model at work *)

Example DecodeRune_ascii : utf8.DecodeRuneInString "a~" = (97%Z, 1).
Proof. reflexivity. Qed.

Example DecodeRune_two_bytes :
  utf8.DecodeRuneInString
    (String (ascii_of_nat 195) (String (ascii_of_nat 169) "x")) = (233%Z, 2).
Proof. reflexivity. Qed.

Example DecodeRune_invalid :
  utf8.DecodeRuneInString (String (ascii_of_nat 195) "x") = (utf8.RuneError, 1).
Proof. reflexivity. Qed.

Example TrimSpace_both_ends : strings.TrimSpace "  'a b' , " = "'a b' ,".
Proof. reflexivity. Qed.

Example Split_commas : strings.Split "'a','b',," "," = ["'a'"; "'b'"; EmptyString; EmptyString].
Proof. reflexivity. Qed.

Example subscript_of_property_name :
  strings.TrimSuffix (strings.TrimPrefix "[*]~" "[") "]~" = "*".
Proof. reflexivity. Qed.

Example bracketChildNames_embedded_comma :
  bracketChildNames "'a,b', 'c\'d' ,'e'" = ["a,b"; "c'd"; "e"].
Proof. reflexivity. Qed.

Example slice_star : slice "*" 3 = inr [0; 1; 2]%Z.
Proof. reflexivity. Qed.

Example slice_last : slice "-1" 3 = inr [2]%Z.
Proof. reflexivity. Qed.

Example slice_backwards : slice "::-1" 3 = inr [2; 1; 0]%Z.
Proof. reflexivity. Qed.

Example slice_union : slice "0,2,0:2" 4 = inr [0; 2; 0; 1]%Z.
Proof. reflexivity. Qed.

Example slice_out_of_range : slice "5" 4 = inr [].
Proof. reflexivity. Qed.

Example slice_zero :
  slice "1:2:0" 5 = inl "array index step value must be non-zero".
Proof. reflexivity. Qed.

Example images_of_the_deployment :
  found [mkLexeme lexemeRoot "$"; mkLexeme lexemeRecursiveDescent "..spec";
         mkLexeme lexemeDotChild ".containers";
         mkLexeme lexemeArraySubscript "[*]"; mkLexeme lexemeDotChild ".image"]
        deployment = Some ["nginx"; "nginy"].
Proof. reflexivity. Qed.

Example last_container_of_the_deployment :
  found [mkLexeme lexemeRoot "$"; mkLexeme lexemeDotChild ".spec";
         mkLexeme lexemeDotChild ".containers";
         mkLexeme lexemeArraySubscript "[-1]"; mkLexeme lexemeDotChild ".name"]
        deployment = Some ["nginy"].
Proof. reflexivity. Qed.

Example ports_of_the_deployment :
  found [mkLexeme lexemeRoot "$"; mkLexeme lexemeRecursiveDescent "..ports";
         mkLexeme lexemeArraySubscript "[*]";
         mkLexeme lexemeDotChild ".containerPort"]
        deployment = Some ["80"; "81"].
Proof. reflexivity. Qed.

Example property_names_of_a_sequence :
  found [mkLexeme lexemeRoot "$"; mkLexeme lexemeDotChild ".spec";
         mkLexeme lexemeDotChild ".containers";
         mkLexeme lexemeArraySubscriptPropertyName "[*]~"]
        deployment = Some [].
Proof. reflexivity. Qed.

Example empty_path_is_the_identity :
  found [] deployment = Some [EmptyString]
  /\ found [mkLexeme lexemeRoot "$"] deployment = Some [EmptyString]
  /\ found [] (mkNode yaml.ZeroKind EmptyString EmptyString []) = Some [].
Proof. repeat split; reflexivity. Qed.

(** ** The result monad and the range loops *)

Lemma mapM_ext {A B} (g h : A -> result B) (l : list A) :
  (forall a, g a = h a) -> mapM g l = mapM h l.
Proof.
  intros E. induction l as [|a l IH]; simpl; [reflexivity|].
  rewrite E, IH. reflexivity.
Qed.

Lemma mapM_Ok {A B} (g : A -> B) (l : list A) :
  mapM (fun a => Ok (g a)) l = Ok (List.map g l).
Proof.
  induction l as [|a l IH]; simpl; [reflexivity|].
  rewrite IH. reflexivity.
Qed.

Lemma mod2_even (i : nat) : (i mod 2 =? 0) = Nat.even i.
Proof.
  destruct (Nat.even i) eqn:E.
  - apply Nat.eqb_eq. apply Nat.even_spec in E. destruct E as [k ->].
    rewrite Nat.mul_comm. apply Nat.Div0.mod_mul.
  - apply Nat.eqb_neq. intros H.
    assert (Nat.even i = true); [|congruence].
    apply Nat.even_spec. exists (i / 2).
    pose proof (Nat.div_mod_eq i 2). lia.
Qed.

Lemma rangeAppend_alternate {A B} (cond : nat -> bool) (g : A -> result B)
    (l : list A) (k : nat) :
  (forall i, cond (S i) = negb (cond i)) ->
  rangeAppend (fun i _ => cond i) (fun _ n => g n) (enumerateFrom k l) =
  mapM g (alternate (cond k) l).
Proof.
  intros step. revert k. induction l as [|a l IH]; intros k; simpl.
  - reflexivity.
  - destruct (cond k) eqn:E; rewrite IH, step, E; reflexivity.
Qed.

Lemma rangeAppend_filter {A B} (test : A -> bool) (g : A -> result B)
    (l : list A) (k : nat) :
  rangeAppend (fun _ a => test a) (fun _ a => g a) (enumerateFrom k l) =
  mapM g (List.filter test l).
Proof.
  revert k. induction l as [|a l IH]; intros k; simpl; [reflexivity|].
  destruct (test a); simpl; rewrite IH; reflexivity.
Qed.

Lemma nth_error_alternate {A} (l : list A) (i : nat) :
  nth_error (alternate true l) i = nth_error l (2 * i)
  /\ nth_error (alternate false l) i = nth_error l (2 * i + 1).
Proof.
  revert i. induction l as [|a l IH]; intros i.
  - simpl. destruct i; simpl; [split; reflexivity|].
    split; [|destruct (i + S (i + 0) + 1)]; reflexivity.
  - split.
    + destruct i as [|i]; [reflexivity|]. simpl.
      replace (i + S (i + 0)) with (2 * i + 1) by lia. apply IH.
    + simpl. replace (i + (i + 0) + 1) with (S (2 * i)) by lia. simpl.
      apply IH.
Qed.

(** ** [compose] feeds each node through the path, in order *)

Lemma compose_feed (i : Seq) (p : Path) (root : Node) :
  compose i p root = feed i p root.
Proof. reflexivity. Qed.

Lemma feed_single (n : Node) (p : Path) (root : Node) :
  feed [n] p root = f p n root.
Proof.
  unfold feed. simpl. destruct (f p n root); simpl; [|reflexivity].
  rewrite app_nil_r. reflexivity.
Qed.

Lemma compose_single (n : Node) (p : Path) (root : Node) :
  compose (lift [n]) p root = f p n root.
Proof. apply feed_single. Qed.

Lemma flatten_mapM_compose (l : list Node) (p : Path) (root : Node) :
  (its <- mapM (fun n => compose (lift [n]) p root) l ;; Ok (flatten its)) =
  feed l p root.
Proof.
  unfold feed. rewrite (mapM_ext _ (fun a => f p a root)); [reflexivity|].
  intros a. apply compose_single.
Qed.

Lemma feed_identity (l : list Node) (root : Node) :
  feed l (new identity) root = Ok (List.filter initialised l).
Proof.
  unfold feed. induction l as [|a l IH]; simpl; [reflexivity|].
  unfold identity at 1, initialised at 1.
  destruct (yaml.Kind_eqb (Kind a) yaml.ZeroKind); simpl;
    destruct (mapM _ l); simpl in *; congruence.
Qed.

(** ** The tree walk of the recursive descent *)

Lemma Node_induction (P : Node -> Prop) :
  (forall k t v content, Forall P content -> P (mkNode k t v content)) ->
  forall n, P n.
Proof.
  intros step. fix IH 1. intros [k t v content]. apply step.
  induction content as [|c content IHc]; constructor; [apply IH | exact IHc].
Qed.

Lemma recurseNode_eq (n : Node) : recurseNode n = recurse (Content n) ++ [n].
Proof. destruct n as [k t v content]. reflexivity. Qed.

Lemma recurse_cons (n : Node) (nodes : list Node) :
  recurse (n :: nodes) = recurse (Content n) ++ n :: recurse nodes.
Proof.
  simpl recurse. rewrite recurseNode_eq, <- app_assoc. reflexivity.
Qed.

Lemma recurse_single (n : Node) : recurse [n] = recurse (Content n) ++ [n].
Proof. apply recurse_cons. Qed.

Lemma recurse_app (l1 l2 : list Node) :
  recurse (l1 ++ l2) = recurse l1 ++ recurse l2.
Proof.
  induction l1 as [|a l1 IH]; simpl; [reflexivity|].
  rewrite IH, app_assoc. reflexivity.
Qed.

Lemma In_recurse_list (x : Node) (nodes : list Node) :
  In x (recurse nodes) <-> exists c, In c nodes /\ In x (recurse [c]).
Proof.
  induction nodes as [|a nodes IH].
  - simpl. split; [tauto | intros [c [[] _]]].
  - change (a :: nodes) with ([a] ++ nodes). rewrite recurse_app, in_app_iff, IH.
    split.
    + intros [H | [c [Hc H]]].
      * exists a. split; [left; reflexivity | exact H].
      * exists c. split; [right; exact Hc | exact H].
    + intros [c [[<- | Hc] H]]; [left; exact H | right; exists c; tauto].
Qed.

Lemma In_recurse_subnode (n x : Node) : In x (recurse [n]) <-> subnode x n.
Proof.
  revert x. induction n as [k t v content IH] using Node_induction. intros x.
  rewrite recurse_single, in_app_iff, In_recurse_list. simpl Content.
  rewrite Forall_forall in IH. split.
  - intros [[c [Hc H]] | [<- | []]].
    + apply (subnode_content _ c); [exact Hc | apply IH; assumption].
    + apply subnode_self.
  - intros H. inversion H as [d | n' c d Hc Hsub]; subst.
    + right. left. reflexivity.
    + left. exists c. split; [exact Hc | apply IH; assumption].
Qed.

Lemma In_recurse_content (n x : Node) :
  In x (recurse (Content n)) <-> exists c, In c (Content n) /\ subnode x c.
Proof.
  rewrite In_recurse_list. split; intros [c [Hc H]]; exists c; split;
    try exact Hc; apply In_recurse_subnode; exact H.
Qed.

Lemma feed_cons (a : Node) (l : list Node) (p : Path) (root : Node) :
  feed (a :: l) p root =
  (b <- f p a root ;; bs <- feed l p root ;; Ok (b ++ bs)).
Proof.
  unfold feed. cbn [mapM]. destruct (f p a root); [|reflexivity].
  cbn [bind]. destruct (mapM _ l); reflexivity.
Qed.

Lemma feed_keep (test : Node -> bool) (p q : Path) (l : list Node)
    (root : Node) :
  (forall n, f q n root = if test n then f p n root else Ok []) ->
  feed l q root = keep test l p root.
Proof.
  intros step. unfold keep. induction l as [|a l IH]; [reflexivity|].
  rewrite feed_cons, step, IH. cbn [List.filter].
  destruct (test a).
  - rewrite feed_cons. reflexivity.
  - cbn [bind]. destruct (feed _ p root); reflexivity.
Qed.

Lemma feed_Ok (g : Node -> list Node) (p : Path) (l : list Node) (root : Node) :
  (forall n, f p n root = Ok (g n)) ->
  feed l p root = Ok (List.flat_map g l).
Proof.
  intros step. induction l as [|a l IH]; [reflexivity|].
  rewrite feed_cons, step, IH. reflexivity.
Qed.

(** ** Mappings: the loops over the interleaved keys and values *)

Lemma pair_induction {A} (P : list A -> Prop) :
  P [] -> (forall a, P [a]) -> (forall a b l, P l -> P (a :: b :: l)) ->
  forall l, P l.
Proof.
  intros H0 H1 H2. fix IH 1. intros [|a [|b l]].
  - exact H0.
  - apply H1.
  - apply H2. apply IH.
Qed.

Lemma indexNode_app (pre rest : list Node) (i : nat) :
  indexNode (pre ++ rest) (List.length pre + i) =
  match nth_error rest i with
  | Some n => Ok n
  | None => Panic (IndexOutOfRange (List.length pre + i)
                     (List.length (pre ++ rest)))
  end.
Proof.
  unfold indexNode. rewrite nth_error_app2 by lia.
  replace (List.length pre + i - List.length pre) with i by lia.
  reflexivity.
Qed.

Lemma even_SS (n : nat) : Nat.even (S (S n)) = Nat.even n.
Proof. reflexivity. Qed.

Lemma rangeAppend_valuesOf (name : string) (rest : list Node) :
  forall pre,
    Nat.even (List.length pre) = true ->
    Nat.even (List.length rest) = true ->
    rangeAppend
      (fun i n => (i mod 2 =? 0) && String.eqb (Value n) name)
      (fun i _ => c <- indexNode (pre ++ rest) (i + 1) ;; Ok (lift [c]))
      (enumerateFrom (List.length pre) rest) =
    Ok (List.map (fun v => [v]) (valuesOf rest name)).
Proof.
  induction rest as [|a|a b rest IH] using pair_induction; intros pre Hpre Hrest.
  - reflexivity.
  - discriminate.
  - cbn [enumerateFrom rangeAppend].
    rewrite !mod2_even, Nat.even_succ, <- Nat.negb_even, Hpre.
    cbn [negb andb].
    specialize (IH (pre ++ [a; b])).
    rewrite <- app_assoc, length_app in IH. cbn [List.length app] in IH.
    replace (List.length pre + 2) with (S (S (List.length pre))) in IH by lia.
    rewrite IH; [|rewrite even_SS; exact Hpre | exact Hrest].
    unfold valuesOf. cbn [pairs List.filter fst].
    destruct (String.eqb (Value a) name); [|reflexivity].
    rewrite indexNode_app. reflexivity.
Qed.

Lemma concat_singletons {A} (l : list A) :
  List.concat (List.map (fun v => [v]) l) = l.
Proof. induction l as [|a l IH]; simpl; congruence. Qed.

(** ** All children: [.*] and [..*] *)

Lemma rangeAppend_index (g : Node -> result Seq) (rest : list Node) :
  forall pre,
    rangeAppend (fun _ _ => true)
      (fun i _ => c <- indexNode (pre ++ rest) i ;; g c)
      (enumerateFrom (List.length pre) rest) =
    mapM g rest.
Proof.
  induction rest as [|a rest IH]; intros pre; [reflexivity|].
  cbn [enumerateFrom rangeAppend mapM].
  replace (indexNode (pre ++ a :: rest) (List.length pre)) with (Ok a).
  - cbn [bind]. specialize (IH (pre ++ [a])).
    rewrite <- app_assoc, length_app in IH. cbn [List.length app] in IH.
    replace (List.length pre + 1) with (S (List.length pre)) in IH by lia.
    rewrite IH. reflexivity.
  - pose proof (indexNode_app pre (a :: rest) 0) as E.
    rewrite Nat.add_0_r in E. rewrite E. reflexivity.
Qed.

Lemma allChildrenThen_feed (p : Path) (n root : Node) :
  f (allChildrenThen p) n root = feed (children n) p root.
Proof.
  cbn [f allChildrenThen]. unfold children.
  destruct (Kind n); try reflexivity.
  - unfold enumerate.
    pose proof (rangeAppend_index (fun c => compose (lift [c]) p root)
                  (Content n) []) as E.
    cbn [app List.length] in E. rewrite E.
    apply flatten_mapM_compose.
  - unfold enumerate.
    rewrite (rangeAppend_alternate (fun i => negb (i mod 2 =? 0))
               (fun c => compose (lift [c]) p root)).
    + apply flatten_mapM_compose.
    + intros i. rewrite !mod2_even, Nat.even_succ, <- Nat.negb_even.
      reflexivity.
Qed.

Lemma filter_flat_map {A B} (test : B -> bool) (g : A -> list B) (l : list A) :
  List.filter test (List.flat_map g l) =
  List.flat_map (fun a => List.filter test (g a)) l.
Proof.
  induction l as [|a l IH]; [reflexivity|].
  cbn [List.flat_map]. rewrite filter_app, IH. reflexivity.
Qed.

Lemma recursive_star (d root : Node) :
  compose (recurse [d]) (allChildrenThen (new identity)) root =
  Ok (List.filter initialised (List.flat_map children (recurse [d]))).
Proof.
  rewrite compose_feed, filter_flat_map. apply feed_Ok.
  intros n. rewrite allChildrenThen_feed. apply feed_identity.
Qed.

Lemma childOf_children (c m : Node) : childOf c m -> In c (children m).
Proof.
  unfold childOf, children. intros [[-> H] | [-> H]]; exact H.
Qed.

(** ** Comparison filters *)

(** C6: a comparison filter, each side lifted to a list of values, is true
    iff the left list is non-empty, the right list is non-empty, and the
    comparison holds for every pair of a value from the left list and a
    value from the right list; a comparison with an empty side is false. *)
Theorem comparison_filter_holds_iff_all_pairs_hold :
  forall (value : Type) (compare : value -> value -> bool)
         (lhs rhs : Node -> Node -> list value) (node root : Node),
    (comparisonFilter value compare lhs rhs node root = true <->
       lhs node root <> []
       /\ rhs node root <> []
       /\ (forall l r, In l (lhs node root) -> In r (rhs node root) ->
                       compare l r = true))
    /\ (lhs node root = [] \/ rhs node root = [] ->
        comparisonFilter value compare lhs rhs node root = false).
Proof.
  intros value compare lhs rhs node root. unfold comparisonFilter, compareAll.
  generalize (lhs node root) as left. generalize (rhs node root) as right.
  intros right left. split.
  - rewrite !andb_true_iff, !negb_true_iff, forallb_forall. split.
    + intros [[Hl Hr] Hall]. split; [|split].
      * intros ->. discriminate.
      * intros ->. discriminate.
      * intros l r Il Ir. specialize (Hall l Il).
        rewrite forallb_forall in Hall. apply Hall. exact Ir.
    + intros [Hl [Hr Hall]]. split; [split|].
      * destruct left; [contradiction Hl|]; reflexivity.
      * destruct right; [contradiction Hr|]; reflexivity.
      * intros l Il. apply forallb_forall. intros r Ir. apply Hall; assumption.
  - intros [-> | ->]; [reflexivity|].
    destruct left; reflexivity.
Qed.

(** ** Strings: splitting and trimming *)

Lemma length_append (s t : string) :
  String.length (s ++ t)%string = String.length s + String.length t.
Proof. induction s as [|c s IH]; simpl; [reflexivity | rewrite IH; reflexivity]. Qed.

Lemma append_assoc (s t u : string) :
  ((s ++ t) ++ u = s ++ (t ++ u))%string.
Proof. induction s as [|c s IH]; simpl; [reflexivity | rewrite IH; reflexivity]. Qed.

Lemma drop_append (s t : string) : strings.drop (String.length s) (s ++ t) = t.
Proof. induction s as [|c s IH]; simpl; [reflexivity | exact IH]. Qed.

Lemma take_append (s t : string) : strings.take (String.length s) (s ++ t) = s.
Proof.
  induction s as [|c s IH]; simpl; [destruct t; reflexivity | rewrite IH; reflexivity].
Qed.

Lemma TrimSuffix_append (s suffix : string) :
  strings.TrimSuffix (s ++ suffix) suffix = s.
Proof.
  unfold strings.TrimSuffix, strings.HasSuffix.
  rewrite length_append.
  replace (String.length s + String.length suffix - String.length suffix)
    with (String.length s) by lia.
  rewrite drop_append, String.eqb_refl, take_append.
  replace (String.length suffix <=? String.length s + String.length suffix)
    with true by (symmetry; apply Nat.leb_le; lia).
  reflexivity.
Qed.

Lemma TrimPrefix_byte (c : ascii) (s : string) :
  strings.TrimPrefix (String c s) (String c EmptyString) = s.
Proof.
  unfold strings.TrimPrefix. cbn [strings.HasPrefix].
  rewrite Ascii.eqb_refl. destruct s; reflexivity.
Qed.

Lemma free_append (c : ascii) (s t : string) :
  free c (s ++ t) = free c s && free c t.
Proof.
  induction s as [|b s IH]; simpl; [reflexivity|].
  rewrite IH, andb_assoc. reflexivity.
Qed.

Lemma Split_free (sep : ascii) (s : string) :
  free sep s = true -> strings.Split s sep = [s].
Proof.
  induction s as [|b s IH]; simpl; [reflexivity|].
  intros H. apply andb_true_iff in H. destruct H as [Hb Hs].
  apply negb_true_iff in Hb. rewrite Hb, (IH Hs). reflexivity.
Qed.

Lemma Split_append (sep : ascii) (s rest : string) :
  free sep s = true ->
  strings.Split (s ++ String sep rest) sep = s :: strings.Split rest sep.
Proof.
  induction s as [|b s IH]; simpl.
  - intros _. rewrite Ascii.eqb_refl. reflexivity.
  - intros H. apply andb_true_iff in H. destruct H as [Hb Hs].
    apply negb_true_iff in Hb. rewrite Hb, (IH Hs). reflexivity.
Qed.

(** ** The slice parser: a step of zero, and the length of the sequence *)

Lemma member_zero_step (a b : string) (L : Z) :
  free ":" a = true -> free ":" b = true ->
  exists e, Slice.member (a ++ ":" ++ b ++ ":0") L = inl e.
Proof.
  intros Ha Hb. unfold Slice.member.
  change (a ++ ":" ++ b ++ ":0")%string
    with (a ++ String ":" (b ++ String ":" "0"))%string.
  rewrite (Split_append ":" a) by exact Ha.
  rewrite (Split_append ":" b) by exact Hb.
  cbn [strings.Split].
  destruct (Slice.optInt a) as [a'|]; [|eexists; reflexivity].
  destruct (Slice.optInt b) as [b'|]; eexists; reflexivity.
Qed.

Lemma slice_zero_step (a b : string) (length : nat) :
  free "," a = true -> free "," b = true ->
  free ":" a = true -> free ":" b = true ->
  exists e, slice (a ++ ":" ++ b ++ ":0") length = inl e.
Proof.
  intros Ha Hb Ha' Hb'. unfold slice.
  destruct (String.eqb_spec (a ++ ":" ++ b ++ ":0") "*") as [E | _].
  - apply (f_equal String.length) in E. rewrite !length_append in E.
    simpl in E. lia.
  - rewrite Split_free.
    + destruct (member_zero_step a b (Z.of_nat length) Ha' Hb') as [e He].
      exists e. cbn [Slice.union]. rewrite He. reflexivity.
    + rewrite !free_append, Ha, Hb. reflexivity.
Qed.

Lemma member_outcome (m : string) (L L' : Z) :
  match Slice.member m L, Slice.member m L' with
  | inl _, inl _ | inr _, inr _ => True
  | _, _ => False
  end.
Proof.
  unfold Slice.member.
  destruct (strings.Split m ":") as [|a [|b more]]; [exact I| |].
  - destruct (Slice.parseInt a); exact I.
  - destruct (Slice.optInt a); [|exact I].
    destruct (Slice.optInt b); [|exact I].
    destruct (match more with [] => Some None | [s] => Slice.optInt s | _ => None end)
      as [st|]; [|exact I].
    destruct ((match st with Some s => s | None => 1 end =? 0)%Z); exact I.
Qed.

Lemma union_outcome (members : list string) (L L' : Z) :
  match Slice.union members L, Slice.union members L' with
  | inl _, inl _ | inr _, inr _ => True
  | _, _ => False
  end.
Proof.
  induction members as [|m members IH]; [exact I|].
  cbn [Slice.union]. pose proof (member_outcome m L L') as Hm.
  destruct (Slice.member m L), (Slice.member m L'); try contradiction; try exact I.
  destruct (Slice.union members L), (Slice.union members L');
    try contradiction; exact I.
Qed.

Lemma slice_accepted_at_every_length (index : string) (length length' : nat) :
  forall idx, slice index length = inr idx ->
  exists idx', slice index length' = inr idx'.
Proof.
  unfold slice. destruct (String.eqb index "*"); [eexists; reflexivity|].
  intros idx H.
  pose proof (union_outcome (strings.Split index ",")
                (Z.of_nat length) (Z.of_nat length')) as Ho.
  rewrite H in Ho.
  destruct (Slice.union (strings.Split index ",") (Z.of_nat length'));
    [contradiction | eexists; reflexivity].
Qed.


(** ** Plain child names between quotes *)

Lemma byteZ_range (c : ascii) : (0 <= utf8.byteZ c < 256)%Z.
Proof.
  unfold utf8.byteZ. pose proof (N_ascii_bounded c). lia.
Qed.

Lemma zbyte_byteZ (c : ascii) : utf8.zbyte (utf8.byteZ c) = c.
Proof.
  unfold utf8.zbyte. pose proof (byteZ_range c) as R.
  change 255%Z with (Z.ones 8). rewrite Z.land_ones by lia.
  rewrite Z.mod_small by (change (2 ^ 8)%Z with 256%Z; lia).
  unfold utf8.byteZ. rewrite N2Z.id. apply ascii_N_embedding.
Qed.

Lemma Decode_ascii (c : ascii) (s : string) :
  (utf8.byteZ c <? 128)%Z = true ->
  utf8.DecodeRuneInString (String c s) = (utf8.byteZ c, 1).
Proof.
  intros H. unfold utf8.DecodeRuneInString. cbv zeta. rewrite H. reflexivity.
Qed.

Lemma string_of_rune_ascii (c : ascii) :
  (utf8.byteZ c <? 128)%Z = true ->
  utf8.string_of_rune (utf8.byteZ c) = String c EmptyString.
Proof.
  intros H. unfold utf8.string_of_rune. pose proof (byteZ_range c) as R.
  apply Z.ltb_lt in H.
  replace (utf8.byteZ c <? 0)%Z with false by (symmetry; apply Z.ltb_ge; lia).
  replace (utf8.byteZ c <=? 127)%Z with true by (symmetry; apply Z.leb_le; lia).
  rewrite zbyte_byteZ. reflexivity.
Qed.

Lemma plainByte_ascii (c : ascii) :
  plainByte c = true -> (utf8.byteZ c <? 128)%Z = true.
Proof.
  unfold plainByte. cbv zeta. rewrite !andb_true_iff. tauto.
Qed.

Lemma plain_asciiOnly (s : string) : plain s = true -> asciiOnly s = true.
Proof.
  induction s as [|c s IH]; simpl; [reflexivity|].
  intros H. apply andb_true_iff in H. destruct H as [Hc Hs].
  rewrite (plainByte_ascii c Hc), (IH Hs). reflexivity.
Qed.

Lemma asciiOnly_append (s t : string) :
  asciiOnly (s ++ t) = asciiOnly s && asciiOnly t.
Proof.
  induction s as [|c s IH]; simpl; [reflexivity|].
  rewrite IH, andb_assoc. reflexivity.
Qed.

Lemma segments_ascii (s : string) :
  forall fuel,
    asciiOnly s = true -> String.length s <= fuel ->
    strings.segments fuel s = byteSegments s.
Proof.
  induction s as [|c s IH]; intros fuel Ha Hf.
  - destruct fuel; reflexivity.
  - destruct fuel as [|fuel]; [simpl in Hf; lia|].
    simpl in Ha. apply andb_true_iff in Ha. destruct Ha as [Hc Hs].
    cbn [strings.segments]. rewrite (Decode_ascii c s Hc).
    cbn [strings.take strings.drop byteSegments].
    rewrite IH; [reflexivity | exact Hs | simpl in Hf; lia].
Qed.

Lemma byteSegments_append (s t : string) :
  byteSegments (s ++ t) = byteSegments s ++ byteSegments t.
Proof.
  induction s as [|c s IH]; simpl; [reflexivity | rewrite IH; reflexivity].
Qed.

Lemma concat_byteSegments (s : string) :
  String.concat EmptyString (List.map snd (byteSegments s)) = s.
Proof.
  induction s as [|c s IH]; [reflexivity|].
  cbn [byteSegments List.map snd]. destruct s as [|c' s]; [reflexivity|].
  cbn [byteSegments List.map snd] in *. cbn [String.concat] in *.
  rewrite IH. reflexivity.
Qed.

Lemma unescapeLoop_plain (s : string) :
  forall esc,
    plain s = true ->
    unescapeLoop (List.map fst (byteSegments s)) esc false = (esc ++ s)%string.
Proof.
  induction s as [|c s IH]; intros esc H.
  - simpl. induction esc as [|e esc IHe]; simpl; congruence.
  - simpl in H. apply andb_true_iff in H. destruct H as [Hc Hs].
    cbn [byteSegments List.map fst unescapeLoop].
    assert (Hb : (utf8.byteZ c =? 92)%Z = false).
    { unfold plainByte in Hc. cbv zeta in Hc.
      rewrite !andb_true_iff, !negb_true_iff in Hc. tauto. }
    rewrite Hb, (string_of_rune_ascii c (plainByte_ascii c Hc)), (IH _ Hs).
    rewrite append_assoc. reflexivity.
Qed.

Lemma unescape_plain (s : string) : plain s = true -> unescape s = s.
Proof.
  intros H. unfold unescape, strings.runes.
  rewrite segments_ascii by (try apply plain_asciiOnly; auto).
  apply (unescapeLoop_plain s EmptyString H).
Qed.

Lemma plainByte_differs (c q : ascii) :
  plainByte c = true -> plainByte q = false -> (utf8.byteZ q <? 128)%Z = true ->
  (utf8.byteZ c =? utf8.byteZ q)%Z = false.
Proof.
  intros Hc Hq _. apply Z.eqb_neq. intros E.
  assert (c = q) by (rewrite <- (zbyte_byteZ c), E; apply zbyte_byteZ).
  congruence.
Qed.

Lemma balancedLoop_closing (s : string) :
  forall i bal prev,
    (prev =? 92)%Z = false ->
    plain s = true ->
    balancedLoop (byteSegments (s ++ "'")) 39 i bal prev = negb bal.
Proof.
  induction s as [|c s IH]; intros i bal prev Hprev H.
  - cbn. rewrite Hprev, andb_false_r. reflexivity.
  - simpl in H. apply andb_true_iff in H. destruct H as [Hc Hs].
    cbn [append byteSegments balancedLoop].
    assert (H39 : (utf8.byteZ c =? 39)%Z = false)
      by (apply (plainByte_differs c "'" Hc); reflexivity).
    assert (H92 : (utf8.byteZ c =? 92)%Z = false)
      by (apply (plainByte_differs c "\" Hc); reflexivity).
    rewrite H39. apply IH; assumption.
Qed.

Lemma balancedLoop_dquote (s : string) :
  forall i bal prev,
    plain s = true ->
    balancedLoop (byteSegments (s ++ "'")) 34 i bal prev = bal.
Proof.
  induction s as [|c s IH]; intros i bal prev H; [reflexivity|].
  simpl in H. apply andb_true_iff in H. destruct H as [Hc Hs].
  cbn [append byteSegments balancedLoop].
  assert (H34 : (utf8.byteZ c =? 34)%Z = false)
    by (apply (plainByte_differs c (ascii_of_nat 34) Hc); reflexivity).
  rewrite H34. apply IH. exact Hs.
Qed.

Lemma balanced_quoted (name : string) :
  plain name = true ->
  balanced (quoted name) 39 && balanced (quoted name) 34 = true.
Proof.
  intros H. unfold balanced.
  assert (Ha : asciiOnly (quoted name) = true).
  { unfold quoted. rewrite !asciiOnly_append, (plain_asciiOnly name H).
    reflexivity. }
  rewrite segments_ascii by (auto; exact Ha).
  apply andb_true_iff. split.
  - unfold quoted. change ("'" ++ name ++ "'")%string
      with (String "'" (name ++ "'"))%string.
    cbn [byteSegments balancedLoop]. cbn [Z.eqb utf8.byteZ]. 
    change (utf8.byteZ "'" =? 39)%Z with true. cbv iota.
    change (eof =? 92)%Z with false. rewrite andb_false_r.
    rewrite balancedLoop_closing; [reflexivity | reflexivity | exact H].
  - unfold quoted. change ("'" ++ name ++ "'")%string
      with (String "'" (name ++ "'"))%string.
    cbn [byteSegments balancedLoop].
    change (utf8.byteZ "'" =? 34)%Z with false. cbv iota.
    apply balancedLoop_dquote. exact H.
Qed.

Lemma plain_free (q : ascii) (s : string) :
  plainByte q = false -> plain s = true -> free q s = true.
Proof.
  intros Hq. induction s as [|c s IH]; simpl; [reflexivity|].
  intros H. apply andb_true_iff in H. destruct H as [Hc Hs].
  rewrite (IH Hs), andb_true_r. apply negb_true_iff.
  destruct (Ascii.eqb_spec c q) as [-> | _]; [congruence | reflexivity].
Qed.

Lemma free_quoted (name : string) :
  plain name = true -> free "," (quoted name) = true.
Proof.
  intros H. unfold quoted. rewrite !free_append.
  rewrite (plain_free "," name eq_refl H). reflexivity.
Qed.

Lemma Split_listed (names : list string) :
  names <> [] ->
  Forall (fun name => plain name = true) names ->
  strings.Split (listed names) "," = List.map quoted names.
Proof.
  intros Hne H. induction H as [|name names Hname Hnames IH];
    [contradiction Hne; reflexivity|].
  unfold listed in *. destruct names as [|name' names].
  - cbn [List.map String.concat]. apply Split_free, free_quoted, Hname.
  - cbn [List.map String.concat] in *.
    change ("," ++ ?s)%string with (String "," s).
    rewrite Split_append by (apply free_quoted, Hname).
    rewrite IH by discriminate. reflexivity.
Qed.

Lemma reconstitute_balanced (s : list string) :
  forall children,
    Forall (fun c => balanced c 39 && balanced c 34 = true) s ->
    reconstitute s children EmptyString = (children ++ s, EmptyString).
Proof.
  induction s as [|c s IH]; intros children H.
  - simpl. rewrite app_nil_r. reflexivity.
  - inversion H as [|c' s' Hc Hs]; subst.
    cbn [reconstitute]. rewrite Hc. cbn [String.eqb negb].
    rewrite (IH _ Hs), <- app_assoc. reflexivity.
Qed.

Lemma dropWhileSpace_edges (a b : Z * string) (mid : list (Z * string)) :
  strings.IsSpace (fst a) = false ->
  strings.IsSpace (fst b) = false ->
  rev (strings.dropWhileSpace (rev (strings.dropWhileSpace (a :: mid ++ [b]))))
  = a :: mid ++ [b].
Proof.
  destruct a as [ra sa], b as [rb sb]. cbn [fst]. intros Ha Hb.
  cbn [strings.dropWhileSpace]. rewrite Ha.
  assert (E : rev ((ra, sa) :: mid ++ [(rb, sb)])
              = (rb, sb) :: rev mid ++ [(ra, sa)]).
  { cbn [rev]. rewrite rev_app_distr. reflexivity. }
  rewrite E. cbn [strings.dropWhileSpace]. rewrite Hb, <- E.
  apply rev_involutive.
Qed.

Lemma TrimSpace_quoted (name : string) :
  plain name = true -> strings.TrimSpace (quoted name) = quoted name.
Proof.
  intros H. unfold strings.TrimSpace.
  assert (Ha : asciiOnly (quoted name) = true).
  { unfold quoted. rewrite !asciiOnly_append, (plain_asciiOnly name H).
    reflexivity. }
  rewrite segments_ascii by (auto; exact Ha).
  rewrite <- (concat_byteSegments (quoted name)) at 2. f_equal. f_equal.
  unfold quoted.
  change ("'" ++ name ++ "'")%string with (String "'" (name ++ "'"))%string.
  cbn [byteSegments]. rewrite byteSegments_append.
  apply dropWhileSpace_edges; reflexivity.
Qed.

Lemma unquote_quoted (name : string) :
  plain name = true -> unquote (quoted name) = name.
Proof.
  intros H. unfold unquote. rewrite (TrimSpace_quoted name H).
  unfold quoted at 1.
  change ("'" ++ name ++ "'")%string with (String "'" (name ++ "'"))%string.
  cbn [strings.HasPrefix]. rewrite Ascii.eqb_refl. cbn [andb].
  replace (strings.HasPrefix (name ++ "'") EmptyString) with true
    by (destruct (name ++ "'")%string; reflexivity).
  unfold quoted.
  change ("'" ++ name ++ "'")%string with (String "'" (name ++ "'"))%string.
  rewrite TrimPrefix_byte, TrimSuffix_append. apply unescape_plain, H.
Qed.

Lemma bracketChildNames_listed (names : list string) :
  names <> [] ->
  Forall (fun name => plain name = true) names ->
  bracketChildNames (listed names) = names.
Proof.
  intros Hne H. unfold bracketChildNames.
  rewrite (Split_listed names Hne H).
  rewrite reconstitute_balanced.
  - cbn [String.eqb negb app]. rewrite map_map.
    induction H as [|name names Hname Hnames IH]; [reflexivity|].
    cbn [List.map]. rewrite (unquote_quoted name Hname). f_equal.
    destruct names as [|name' names]; [reflexivity|].
    apply IH. discriminate.
  - apply Forall_forall. intros c Hc. apply in_map_iff in Hc.
    destruct Hc as [name [<- Hin]]. apply balanced_quoted.
    rewrite Forall_forall in H. apply H, Hin.
Qed.

(** The bracket-child step on a Mapping whose content holds its keys and
    values in pairs: for each name [bracketChildNames] reads off the text
    of the step, in that order, it emits the value node of every key equal
    to that name in document order, duplicates kept, and feeds the emitted
    nodes through the next matcher in that order. For plain names between
    quotes, the names read are the names themselves in the order written. *)
Theorem bracketChild_follows_names_then_document_order :
  forall (childNames : string) (p : Path) (m root : Node),
    isMapping m = true ->
    Nat.even (List.length (Content m)) = true ->
    f (bracketChildThen childNames p) m root =
      feed (List.flat_map (valuesOf (Content m)) (bracketChildNames childNames))
           p root
    /\ (forall names,
          names <> [] ->
          Forall (fun name => plain name = true) names ->
          bracketChildNames (listed names) = names).
Proof.
  intros childNames p m root Hm Heven.
  split; [|apply bracketChildNames_listed].
  cbn [f bracketChildThen]. rewrite Hm. cbn [negb].
  rewrite (mapM_ext _ (fun name =>
             Ok (List.map (fun v => [v]) (valuesOf (Content m) name)))).
  - rewrite mapM_Ok. cbn [bind]. rewrite compose_feed. f_equal.
    unfold flatten. induction (bracketChildNames childNames) as [|x names IH].
    + reflexivity.
    + cbn [List.map List.concat List.flat_map].
      rewrite concat_app, concat_singletons, IH. reflexivity.
  - intros name. apply (rangeAppend_valuesOf name (Content m) []);
      [reflexivity | exact Heven].
Qed.

Lemma rangeReturn_first_value (name : string) (p : Path) (root : Node)
    (rest : list Node) :
  forall pre,
    Nat.even (List.length pre) = true ->
    Nat.even (List.length rest) = true ->
    rangeReturn
      (fun i n => (i mod 2 =? 0) && String.eqb (Value n) name)
      (fun i _ => c <- indexNode (pre ++ rest) (i + 1) ;;
                  compose (lift [c]) p root)
      (empty (mkNode yaml.MappingNode EmptyString EmptyString []) root)
      (enumerateFrom (List.length pre) rest) =
    match valuesOf rest name with
    | [] => Ok []
    | v :: _ => f p v root
    end.
Proof.
  induction rest as [|a|a b rest IH] using pair_induction; intros pre Hpre Hrest.
  - reflexivity.
  - discriminate.
  - cbn [enumerateFrom rangeReturn].
    rewrite !mod2_even, Nat.even_succ, <- Nat.negb_even, Hpre.
    cbn [negb andb]. unfold valuesOf. cbn [pairs List.filter fst].
    destruct (String.eqb (Value a) name).
    + rewrite indexNode_app. cbn [nth_error bind List.map snd].
      apply compose_single.
    + specialize (IH (pre ++ [a; b])).
      rewrite <- app_assoc, length_app in IH. cbn [List.length app] in IH.
      replace (List.length pre + 2) with (S (S (List.length pre))) in IH by lia.
      apply IH; [rewrite even_SS; exact Hpre | exact Hrest].
Qed.

(** What [childThen] does for a name other than [*]: the value of the first
    key equal to the name, fed through the next path, and nothing when no
    key is equal to it or the node is no Mapping. *)
Lemma childThen_first_value (childName : string) (p : Path) (m root : Node) :
  String.eqb childName "*" = false ->
  Nat.even (List.length (Content m)) = true ->
  f (childThen childName p) m root =
  if isMapping m
  then match valuesOf (Content m) (unescape childName) with
       | [] => Ok []
       | v :: _ => f p v root
       end
  else Ok [].
Proof.
  intros Hstar Heven. unfold childThen. rewrite Hstar. cbn [f].
  destruct (isMapping m); [|reflexivity]. cbn [negb].
  apply (rangeReturn_first_value (unescape childName) p root (Content m) []);
    [reflexivity | exact Heven].
Qed.

Section Compiled.

Variable filterNode : Type.
Variable newFilterNode : list lexeme -> filterNode.
Variable newFilter : filterNode -> Filter.

Local Notation "'compile'" := (newPath filterNode newFilterNode newFilter).

(** C1 (the code at the failing input): the path compiled from the single
    lexeme Root, the path [$], applied by [Find] to a Document node with
    empty content. The root step reads [node.Content[0]] without a check of
    the length, so the evaluation ends in an index-out-of-range panic
    instead of a list of nodes and a nil error. *)
Theorem Find_root_of_empty_document_panics :
  exists p,
    compile [mkLexeme lexemeRoot "$"] = (Some p, None)
    /\ Find p (document []) = Panic (IndexOutOfRange 0 0).
Proof.
  eexists. split; reflexivity.
Qed.

(** C4 (amended): the recursive-descent matcher emits all the transitive
    descendants of the current node [n] first, each subtree in post-order
    (children before their parents), and the current node [n] itself
    last; the emitted nodes are fed through the next matcher in that
    order. *)
Theorem recursive_descent_emits_descendants_then_node :
  forall (l : lexer) (sub : Path) (n root : Node),
    compile l = (Some sub, None) ->
    exists p,
      compile (mkLexeme lexemeRecursiveDescent ".." :: l) = (Some p, None)
      /\ f p n root = feed (recurse (Content n) ++ [n]) sub root
      /\ recurse [n] = recurse (Content n) ++ [n]
      /\ (forall c rest, recurse (c :: rest) =
                         recurse (Content c) ++ c :: recurse rest)
      /\ (forall x, In x (recurse (Content n)) <->
                    exists c, In c (Content n) /\ subnode x c).
Proof.
  intros l sub n root Hl.
  eexists. split; [|split; [|split; [|split]]].
  - change (compile (mkLexeme lexemeRecursiveDescent ".." :: l))
      with (withSubPath (compile l) (fun subPath =>
              new (fun node root => compose (recurse [node]) subPath root))).
    rewrite Hl. reflexivity.
  - cbn [f]. rewrite compose_feed, recurse_single. reflexivity.
  - apply recurse_single.
  - intros c rest. apply recurse_cons.
  - intros x. apply In_recurse_content.
Qed.

(** *** The filter loop of [newPath] *)

Lemma newPath_filter (lx : lexeme) (l : lexer) :
  typ lx = lexemeFilterBegin \/ typ lx = lexemeRecursiveFilterBegin ->
  compile (lx :: l) =
  match filterLexemesLoop l [] 1%Z with
  | inl err => (None, Some err)
  | inr (filterLexemes, rest) =>
    withSubPath (compile rest) (fun subPath =>
      if isRecursive lx then recursiveFilterThen filterNode newFilterNode newFilter filterLexemes subPath
      else filterThen filterNode newFilterNode newFilter filterLexemes subPath)
  end.
Proof.
  intros H. unfold isRecursive.
  destruct lx as [t v]. simpl in H.
  destruct H as [-> | ->]; cbn [newPath typ];
    match goal with
    | |- ?loop l [] 1%Z = match _ with inl _ => _ | inr p => @?k p end =>
      assert (E : forall l acc level,
                 loop l acc level =
                 match filterLexemesLoop l acc level with
                 | inl err => (None, Some err)
                 | inr p => k p
                 end);
        [|apply E]
    end;
    clear l; induction l as [|a l IH]; intros acc level; simpl;
      try reflexivity;
      destruct (typ a); try apply IH; try reflexivity;
      destruct (level - 1 =? 0)%Z; try apply IH; reflexivity.
Qed.

(** [newPath] and its filter loop read the stream through [nextLexeme]. *)
Lemma newPath_nextLexeme (l : lexer) :
  compile l = compile (fst (nextLexeme l) :: snd (nextLexeme l)).
Proof. destruct l; reflexivity. Qed.

Lemma filterLexemesLoop_nextLexeme (l : lexer) (acc : list lexeme) (level : Z) :
  filterLexemesLoop l acc level =
  filterLexemesLoop (fst (nextLexeme l) :: snd (nextLexeme l)) acc level.
Proof. destruct l; reflexivity. Qed.

(** The compiler at a lexeme that opens a filter: the filter loop, then the
    rest of the path. *)
Ltac enter_filter :=
  rewrite newPath_filter by (first [left; reflexivity | right; reflexivity]).

Lemma withSubPath_definite (sub : option Path * option error)
    (k : Path -> Path) :
  definite (withSubPath sub k).
Proof.
  destruct sub as [subPath [err|]]; simpl.
  - right. eexists. reflexivity.
  - left. eexists. reflexivity.
Qed.

Lemma newPath_definite (l : lexer) : definite (compile l).
Proof.
  destruct l as [|[t v] l]; [left; eexists; reflexivity|].
  destruct t;
    try (cbn [newPath typ]; apply withSubPath_definite);
    try (right; eexists; reflexivity);
    try (left; eexists; reflexivity);
    enter_filter;
    (destruct (filterLexemesLoop l [] 1%Z) as [e | [fl rest]];
     [right; eexists; reflexivity | apply withSubPath_definite]).
Qed.

(** C2: for every input string, whatever lexemes the lexer emits for it,
    [NewPath] returns exactly one of two outcomes: a Path together with a
    nil error, or a nil Path together with an error. It never returns a
    Path alongside an error and never returns neither; the same holds for
    [newPath] on every lexer state. *)
Theorem NewPath_returns_a_path_or_an_error :
  forall (lex : string -> string -> lexer) (path : string) (l : lexer),
    ((exists p, NewPath lex filterNode newFilterNode newFilter path
                = (Some p, None))
     \/ (exists e, NewPath lex filterNode newFilterNode newFilter path
                   = (None, Some e)))
    /\ ((exists p, compile l = (Some p, None))
        \/ (exists e, compile l = (None, Some e))).
Proof.
  intros lex path l. split.
  - apply (newPath_definite (lex "Path lexer" path)).
  - apply (newPath_definite l).
Qed.

(** C9: the step [[*]~] applied to a Mapping emits every key node, the
    nodes at the even indices of its content, in declaration order, each
    fed through the next matcher; applied to a node of any other kind, a
    Sequence among them, it emits nothing, and so does the step with a
    subscript other than [*]. *)
Theorem propertyNameArraySubscript_emits_keys :
  forall (subscript : string) (p : Path) (node root : Node) (l : lexer),
    f (propertyNameArraySubscriptThen subscript p) node root =
      (if isMapping node && String.eqb subscript "*"
       then feed (keys (Content node)) p root
       else Ok [])
    /\ (forall i, nth_error (keys (Content node)) i
                  = nth_error (Content node) (2 * i))
    /\ compile (mkLexeme lexemeArraySubscriptPropertyName "[*]~" :: l) =
         withSubPath (compile l) (propertyNameArraySubscriptThen "*").
Proof.
  intros subscript p node root l. split; [|split].
  - cbn [f propertyNameArraySubscriptThen].
    destruct (isMapping node && String.eqb subscript "*"); [|reflexivity].
    unfold enumerate.
    rewrite (rangeAppend_alternate
               (fun i => negb (negb (i mod 2 =? 0)))
               (fun n => compose (lift [n]) p root)).
    + apply flatten_mapM_compose.
    + intros i. rewrite !mod2_even, Nat.even_succ, <- Nat.negb_even.
      destruct (Nat.even i); reflexivity.
  - intros i. apply nth_error_alternate.
  - reflexivity.
Qed.

(** C10: the recursive filter step evaluates the filter on the node it is
    given, whatever its kind, and keeps the node iff the filter holds on
    it; compiled after a recursive descent, [..[?(expr)]] filters each
    visited node itself. The elements of a Sequence are filtered one by
    one only by the non-recursive filter step, which tests the node itself
    when it is no Sequence. *)
Theorem recursive_filter_tests_each_visited_node :
  forall (open : lexeme) (l filterLexemes rest : lexer) (sub : Path)
         (node root : Node),
    typ open = lexemeRecursiveFilterBegin ->
    filterLexemesLoop l [] 1%Z = inr (filterLexemes, rest) ->
    compile rest = (Some sub, None) ->
    let filter := newFilter (newFilterNode filterLexemes) in
    f (recursiveFilterThen filterNode newFilterNode newFilter
         filterLexemes sub) node root =
      (if filter node root then f sub node root else Ok [])
    /\ (exists p,
          compile (mkLexeme lexemeRecursiveDescent ".." :: open :: l) =
            (Some p, None)
          /\ f p node root =
               keep (fun n => filter n root) (recurse [node]) sub root)
    /\ f (filterThen filterNode newFilterNode newFilter
            filterLexemes sub) node root =
         (if isSequence node
          then keep (fun n => filter n root) (Content node) sub root
          else if filter node root then f sub node root else Ok []).
Proof.
  intros open l fl rest sub node root Hopen Hloop Hrest filter.
  assert (Hstep : forall n,
             f (recursiveFilterThen filterNode newFilterNode newFilter fl sub)
               n root =
             (if filter n root then f sub n root else Ok [])).
  { intros n. cbn [f recursiveFilterThen]. fold filter.
    destruct (filter n root); [|reflexivity].
    rewrite compose_single. destruct (f sub n root); [|reflexivity].
    simpl. rewrite app_nil_r. reflexivity. }
  split; [apply Hstep|split].
  - eexists. split.
    + change (compile (mkLexeme lexemeRecursiveDescent ".." :: open :: l))
        with (withSubPath (compile (open :: l)) (fun subPath =>
                new (fun node root =>
                       compose (recurse [node]) subPath root))).
      rewrite newPath_filter by (right; exact Hopen).
      rewrite Hloop, Hrest. unfold isRecursive. rewrite Hopen. reflexivity.
    + cbn [f deref]. rewrite compose_feed. apply feed_keep. exact Hstep.
  - cbn [f filterThen]. fold filter. destruct (isSequence node).
    + unfold enumerate.
      rewrite (rangeAppend_filter (fun c => filter c root)
                 (fun c => compose (lift [c]) sub root)).
      unfold keep. apply flatten_mapM_compose.
    + destruct (filter node root); [|reflexivity].
      rewrite compose_single. destruct (f sub node root); [|reflexivity].
      simpl. rewrite app_nil_r. reflexivity.
Qed.

(** C5 (amended): evaluating the path [..*] on a document [d] returns,
    each at least once, every initialised node that is a value of a
    Mapping or an element of a Sequence anywhere in the tree of [d]: the
    children of [d] and of each of its transitive descendants, in the
    order of the post-order walk. The key nodes of a Mapping are skipped
    by the step. *)
Theorem recursive_descent_star_returns_every_child :
  forall (d m c : Node),
    subnode m d ->
    childOf c m ->
    Kind c <> yaml.ZeroKind ->
    exists p r,
      compile [mkLexeme lexemeRecursiveDescent "..*"] = (Some p, None)
      /\ Find p d = Ok (r, None)
      /\ r = List.filter initialised (List.flat_map children (recurse [d]))
      /\ In c r.
Proof.
  intros d m c Hm Hc Hk.
  exists (new (fun node root =>
            compose (recurse [node]) (allChildrenThen (new identity)) root)).
  eexists. split; [reflexivity|]. split; [|split; [reflexivity|]].
  - unfold Find, find. cbn [f]. rewrite recursive_star. reflexivity.
  - apply filter_In. split.
    + apply in_flat_map. exists m. split.
      * apply In_recurse_subnode. exact Hm.
      * apply childOf_children. exact Hc.
    + unfold initialised. destruct (Kind c); try reflexivity.
      contradiction Hk. reflexivity.
Qed.

(** C3 (the code at the failing input): on the mapping [{a: 1, a: 2}] the
    path [.a] returns the value of the first key [a] only, where the
    bracket form of the same child step returns the value of each of the
    two keys. *)
Theorem dot_child_stops_at_the_first_equal_key :
  exists p q,
    compile [mkLexeme lexemeDotChild ".a"] = (Some p, None)
    /\ compile [mkLexeme lexemeBracketChild "['a']"] = (Some q, None)
    /\ valuesOf (Content twice) "a" = [scalar "1"; scalar "2"]
    /\ Find p twice = Ok ([scalar "1"], None)
    /\ Find q twice = Ok ([scalar "1"; scalar "2"], None).
Proof.
  eexists. eexists. repeat split; reflexivity.
Qed.

(** C7 (the code at the failing input): on the mapping [doubleQuoted],
    whose two keys are the names of [doubleQuotedNames], the bracket-child
    step over these two names, each written between single quotes, returns
    no node, where the values of the keys equal to the listed names are 1
    and 2: [bracketChildNames] reads the text of the step as one name, the
    first name joined with the second. The same two names with the first
    one written between double quotes, its double quote escaped, return
    both values. *)
Theorem bracket_child_loses_a_name_holding_a_double_quote :
  exists p q,
    compile [mkLexeme lexemeBracketChild
               ("[" ++ listed doubleQuotedNames ++ "]")] = (Some p, None)
    /\ compile [mkLexeme lexemeBracketChild
                  ("[" ++ dquote ++ "x\" ++ dquote ++ "y" ++ dquote
                   ++ ",'z']")] = (Some q, None)
    /\ List.flat_map (valuesOf (Content doubleQuoted)) doubleQuotedNames
       = [scalar "1"; scalar "2"]
    /\ bracketChildNames (listed doubleQuotedNames)
       = [("x" ++ dquote ++ "y','z")%string]
    /\ Find p doubleQuoted = Ok ([], None)
    /\ Find q doubleQuoted = Ok ([scalar "1"; scalar "2"], None).
Proof.
  eexists. eexists. repeat split; reflexivity.
Qed.

(** *** An Error lexeme anywhere in the stream *)

Lemma filterLexemesLoop_error (v : string) (rest : lexer) (pre : lexer) :
  forall acc level,
    Forall (fun lx => continues lx = true) pre ->
    (exists e, filterLexemesLoop (pre ++ mkLexeme lexemeError v :: rest)
                 acc level = inl e)
    \/ (exists fl pre',
          filterLexemesLoop (pre ++ mkLexeme lexemeError v :: rest)
            acc level = inr (fl, pre' ++ mkLexeme lexemeError v :: rest)
          /\ Forall (fun lx => continues lx = true) pre'
          /\ List.length pre' < List.length pre).
Proof.
  induction pre as [|a pre IH]; intros acc level Hpre.
  - left. eexists. reflexivity.
  - inversion Hpre as [|a' pre' Ha Hpre']; subst.
    assert (Hgo : forall acc level,
               (exists e, filterLexemesLoop
                            (pre ++ mkLexeme lexemeError v :: rest)
                            acc level = inl e)
               \/ (exists fl pre',
                     filterLexemesLoop
                       (pre ++ mkLexeme lexemeError v :: rest) acc level =
                       inr (fl, pre' ++ mkLexeme lexemeError v :: rest)
                     /\ Forall (fun lx => continues lx = true) pre'
                     /\ List.length pre' < List.length (a :: pre))).
    { intros acc' level'.
      destruct (IH acc' level' Hpre') as [H | [fl [pre'' [H [F Hlen]]]]].
      - left. exact H.
      - right. exists fl, pre''. repeat split; try assumption. simpl. lia. }
    cbn [app filterLexemesLoop].
    destruct (typ a); try apply Hgo; try (left; eexists; reflexivity).
    destruct (level - 1 =? 0)%Z; [|apply Hgo].
    right. exists acc, pre. repeat split; [exact Hpre' | simpl; lia].
Qed.

Lemma newPath_error (v : string) (rest : lexer) (pre : lexer) :
  Forall (fun lx => continues lx = true) pre ->
  exists e, compile (pre ++ mkLexeme lexemeError v :: rest) = (None, Some e).
Proof.
  induction pre as [pre IH] using (induction_ltof1 _ (@List.length lexeme)).
  unfold ltof in IH. intros Hpre.
  destruct pre as [|[t w] pre]; [eexists; reflexivity|].
  inversion Hpre as [|a' pre' Ha Hpre']; subst.
  assert (Hsub : forall k,
             exists e,
               withSubPath (compile (pre ++ mkLexeme lexemeError v :: rest)) k
               = (None, Some e)).
  { intros k. destruct (IH pre) as [e He]; [simpl; lia | exact Hpre' |].
    exists e. rewrite He. reflexivity. }
  cbn [app].
  destruct t; try discriminate Ha;
    try (cbn [newPath typ]; apply Hsub);
    try (eexists; reflexivity).
  all: enter_filter.
  all: destruct (filterLexemesLoop_error v rest pre [] 1%Z Hpre')
         as [[e He] | [fl [pre'' [He [F Hlen]]]]]; rewrite He;
         [eexists; reflexivity|].
  all: destruct (IH pre'') as [e He']; [simpl; lia | exact F |].
  all: exists e; rewrite He'; reflexivity.
Qed.

(** C8: a slice subscript whose step is zero is rejected at compile time.
    The slice parser fails on [a:b:0] at every length; the lexer emits an
    Error lexeme for the bracket [[a:b:0]], and [newPath] returns an error
    for every lexeme stream that reaches it, the one of [$[1:2:0]] among
    them. A subscript the lexer accepts is materialized without an error
    at every length, so no compiled Path evaluates a slice of step zero. *)
Theorem zero_step_slice_is_a_compile_error :
  forall (a b : string) (pre rest : lexer) (length : nat),
    free "," a = true -> free ":" a = true ->
    free "," b = true -> free ":" b = true ->
    Forall (fun lx => continues lx = true) pre ->
    (exists e, slice (a ++ ":" ++ b ++ ":0") length = inl e)
    /\ typ (lexArraySubscript ("[" ++ a ++ ":" ++ b ++ ":0]")) = lexemeError
    /\ (exists e,
          compile (pre ++ lexArraySubscript ("[" ++ a ++ ":" ++ b ++ ":0]")
                       :: rest) = (None, Some e))
    /\ (exists e,
          compile [mkLexeme lexemeRoot "$"; lexArraySubscript "[1:2:0]"]
          = (None, Some e))
    /\ (forall text,
          typ (lexArraySubscript text) = lexemeArraySubscript ->
          exists idx, slice (subscriptOf text) length = inr idx).
Proof.
  intros a b pre rest length Ha Ha' Hb Hb' Hpre.
  assert (Hlex : exists e,
             lexArraySubscript ("[" ++ a ++ ":" ++ b ++ ":0]")
             = mkLexeme lexemeError e).
  { unfold lexArraySubscript.
    change ("[" ++ a ++ ":" ++ b ++ ":0]")%string
      with (String "[" (a ++ ":" ++ b ++ ":0]"))%string.
    rewrite TrimPrefix_byte.
    replace (a ++ ":" ++ b ++ ":0]")%string
      with ((a ++ ":" ++ b ++ ":0") ++ "]")%string
      by (rewrite !append_assoc; reflexivity).
    rewrite TrimSuffix_append.
    destruct (slice_zero_step a b 0 Ha Hb Ha' Hb') as [e He].
    exists e. rewrite He. reflexivity. }
  destruct Hlex as [e He].
  split; [apply slice_zero_step; assumption|].
  split; [rewrite He; reflexivity|].
  split; [rewrite He; apply newPath_error; exact Hpre|].
  split; [eexists; reflexivity|].
  intros text Htext. unfold lexArraySubscript in Htext.
  fold (subscriptOf text) in Htext.
  destruct (slice (subscriptOf text) 0) as [err | idx] eqn:E;
    [discriminate Htext|].
  apply (slice_accepted_at_every_length _ 0 length idx E).
Qed.

End Compiled.

(** ** The theorems at concrete inputs *)

Lemma recursive_descent_witness :
  newPath (list lexeme) (fun l => l) sampleFilter [] = (Some (new identity), None)
  /\ exists p,
       newPath (list lexeme) (fun l => l) sampleFilter
         [mkLexeme lexemeRecursiveDescent ".."] = (Some p, None)
       /\ f p sample sample =
            feed (recurse (Content sample) ++ [sample]) (new identity) sample
       /\ recurse [sample] = recurse (Content sample) ++ [sample]
       /\ (forall c rest, recurse (c :: rest) =
                          recurse (Content c) ++ c :: recurse rest)
       /\ (forall x, In x (recurse (Content sample)) <->
                     exists c, In c (Content sample) /\ subnode x c).
Proof.
  split; [reflexivity|].
  apply (recursive_descent_emits_descendants_then_node
           (list lexeme) (fun l => l) sampleFilter [] (new identity)
           sample sample).
  reflexivity.
Defined.

Lemma recursive_descent_star_witness :
  subnode (sequence [scalar "x"; scalar "y"]) sample
  /\ childOf (scalar "y") (sequence [scalar "x"; scalar "y"])
  /\ Kind (scalar "y") <> yaml.ZeroKind
  /\ exists p r,
       newPath (list lexeme) (fun l => l) sampleFilter
         [mkLexeme lexemeRecursiveDescent "..*"] = (Some p, None)
       /\ Find p sample = Ok (r, None)
       /\ r = List.filter initialised (List.flat_map children (recurse [sample]))
       /\ In (scalar "y") r.
Proof.
  assert (H1 : subnode (sequence [scalar "x"; scalar "y"]) sample).
  { apply (subnode_content _ (sequence [scalar "x"; scalar "y"])).
    - simpl. tauto.
    - apply subnode_self. }
  assert (H2 : childOf (scalar "y") (sequence [scalar "x"; scalar "y"])).
  { right. simpl. tauto. }
  assert (H3 : Kind (scalar "y") <> yaml.ZeroKind) by discriminate.
  split; [exact H1|]. split; [exact H2|]. split; [exact H3|].
  apply (recursive_descent_star_returns_every_child
           (list lexeme) (fun l => l) sampleFilter
           sample (sequence [scalar "x"; scalar "y"]) (scalar "y") H1 H2 H3).
Defined.

Lemma bracketChild_witness :
  isMapping twice = true
  /\ Nat.even (List.length (Content twice)) = true
  /\ f (bracketChildThen "'b','a'" (new identity)) twice twice =
       feed (List.flat_map (valuesOf (Content twice))
               (bracketChildNames "'b','a'"))
            (new identity) twice
  /\ (forall names,
        names <> [] ->
        Forall (fun name => plain name = true) names ->
        bracketChildNames (listed names) = names).
Proof.
  split; [reflexivity|]. split; [reflexivity|].
  apply (bracketChild_follows_names_then_document_order
           "'b','a'" (new identity) twice twice); reflexivity.
Defined.

Lemma comparison_filter_witness :
  (comparisonFilter Z Z.ltb (fun _ _ => [1; 2]%Z) (fun _ _ => [3; 4]%Z)
     sample sample = true <->
     [1; 2]%Z <> []
     /\ [3; 4]%Z <> []
     /\ (forall l r, In l [1; 2]%Z -> In r [3; 4]%Z -> Z.ltb l r = true))
  /\ ([1; 2]%Z = [] \/ [3; 4]%Z = [] ->
      comparisonFilter Z Z.ltb (fun _ _ => [1; 2]%Z) (fun _ _ => [3; 4]%Z)
        sample sample = false).
Proof.
  apply (comparison_filter_holds_iff_all_pairs_hold Z Z.ltb
           (fun _ _ => [1; 2]%Z) (fun _ _ => [3; 4]%Z) sample sample).
Defined.

Lemma zero_step_witness :
  free "," "1" = true /\ free ":" "1" = true
  /\ free "," "2" = true /\ free ":" "2" = true
  /\ Forall (fun lx => continues lx = true) [mkLexeme lexemeRoot "$"]
  /\ (exists e, slice ("1" ++ ":" ++ "2" ++ ":0") 3 = inl e)
  /\ typ (lexArraySubscript ("[" ++ "1" ++ ":" ++ "2" ++ ":0]")) = lexemeError
  /\ (exists e,
        newPath (list lexeme) (fun l => l) sampleFilter
          ([mkLexeme lexemeRoot "$"]
             ++ lexArraySubscript ("[" ++ "1" ++ ":" ++ "2" ++ ":0]") :: [])
        = (None, Some e))
  /\ (exists e,
        newPath (list lexeme) (fun l => l) sampleFilter
          [mkLexeme lexemeRoot "$"; lexArraySubscript "[1:2:0]"]
        = (None, Some e))
  /\ (forall text,
        typ (lexArraySubscript text) = lexemeArraySubscript ->
        exists idx, slice (subscriptOf text) 3 = inr idx).
Proof.
  assert (H : Forall (fun lx => continues lx = true) [mkLexeme lexemeRoot "$"]).
  { constructor; [reflexivity | constructor]. }
  split; [reflexivity|]. split; [reflexivity|].
  split; [reflexivity|]. split; [reflexivity|]. split; [exact H|].
  apply (zero_step_slice_is_a_compile_error
           (list lexeme) (fun l => l) sampleFilter
           "1" "2" [mkLexeme lexemeRoot "$"] [] 3
           eq_refl eq_refl eq_refl eq_refl H).
Defined.

Lemma recursive_filter_witness :
  typ (mkLexeme lexemeRecursiveFilterBegin "[?(") = lexemeRecursiveFilterBegin
  /\ filterLexemesLoop
       [mkLexeme lexemeFilterAt "@"; mkLexeme lexemeFilterEnd ")]"] [] 1%Z
     = inr ([mkLexeme lexemeFilterAt "@"], [])
  /\ newPath (list lexeme) (fun l => l) sampleFilter [] =
       (Some (new identity), None)
  /\ f (recursiveFilterThen (list lexeme) (fun l => l) sampleFilter
          [mkLexeme lexemeFilterAt "@"] (new identity))
       (sequence [scalar "x"]) sample =
       (if sampleFilter [mkLexeme lexemeFilterAt "@"] (sequence [scalar "x"])
             sample
        then f (new identity) (sequence [scalar "x"]) sample else Ok [])
  /\ (exists p,
        newPath (list lexeme) (fun l => l) sampleFilter
          (mkLexeme lexemeRecursiveDescent ".."
             :: mkLexeme lexemeRecursiveFilterBegin "[?("
             :: [mkLexeme lexemeFilterAt "@"; mkLexeme lexemeFilterEnd ")]"])
        = (Some p, None)
        /\ f p (sequence [scalar "x"]) sample =
             keep (fun n => sampleFilter [mkLexeme lexemeFilterAt "@"] n sample)
               (recurse [sequence [scalar "x"]]) (new identity) sample)
  /\ f (filterThen (list lexeme) (fun l => l) sampleFilter
          [mkLexeme lexemeFilterAt "@"] (new identity))
       (sequence [scalar "x"]) sample =
       (if isSequence (sequence [scalar "x"])
        then keep (fun n => sampleFilter [mkLexeme lexemeFilterAt "@"] n sample)
               (Content (sequence [scalar "x"])) (new identity) sample
        else if sampleFilter [mkLexeme lexemeFilterAt "@"]
                  (sequence [scalar "x"]) sample
             then f (new identity) (sequence [scalar "x"]) sample else Ok []).
Proof.
  split; [reflexivity|]. split; [reflexivity|]. split; [reflexivity|].
  apply (recursive_filter_tests_each_visited_node
           (list lexeme) (fun l => l) sampleFilter
           (mkLexeme lexemeRecursiveFilterBegin "[?(")
           [mkLexeme lexemeFilterAt "@"; mkLexeme lexemeFilterEnd ")]"]
           [mkLexeme lexemeFilterAt "@"] [] (new identity)
           (sequence [scalar "x"]) sample
           eq_refl eq_refl eq_refl).
Defined.

(** ** Where the code differs from the wording of the specification *)

(** C4 (counterexample): on the sequence [[x]] the recursive descent emits
    the element [x] first and the sequence itself last, not the current
    node followed by its descendants. *)
Lemma recurse_does_not_emit_the_current_node_first :
  ~ currentNodeFirst (sequence [scalar "x"]).
Proof.
  unfold currentNodeFirst. simpl. intros H. discriminate H.
Qed.

(** C5 (counterexample): on the mapping [{a: [x, y], b: 1}] the path [..*]
    returns the four nodes [x], [y], [[x, y]] and [1]; the key node [a],
    a node of the tree, is not among them (nor is the root mapping). *)
Lemma recursive_descent_star_misses_nodes :
  exists p,
    newPath (list lexeme) (fun l => l) sampleFilter
      [mkLexeme lexemeRecursiveDescent "..*"] = (Some p, None)
    /\ Find p sample =
         Ok ([scalar "x"; scalar "y"; sequence [scalar "x"; scalar "y"];
              scalar "1"], None)
    /\ ~ returnsEveryNode p sample.
Proof.
  eexists. split; [reflexivity|]. split; [reflexivity|].
  intros H.
  destruct (H (scalar "a")) as [r [Hr Hin]].
  - apply (subnode_content _ (scalar "a")); [simpl; tauto | apply subnode_self].
  - inversion Hr; subst. simpl in Hin.
    repeat (destruct Hin as [Hin | Hin]; [discriminate Hin|]). exact Hin.
Qed.

(** * Further properties of the matchers *)

(** ** Named children and property names *)

Lemma indexNode_here (pre rest : list Node) (a : Node) :
  indexNode (pre ++ a :: rest) (List.length pre) = Ok a.
Proof.
  pose proof (indexNode_app pre (a :: rest) 0) as E.
  rewrite Nat.add_0_r in E. exact E.
Qed.

Lemma rangeReturn_first_key {B} (test : Node -> bool) (g : Node -> result B)
    (final : result B) (rest : list Node) :
  forall pre,
    rangeReturn (fun i n => (i mod 2 =? 0) && test n)
      (fun i _ => c <- indexNode (pre ++ rest) i ;; g c)
      final (enumerateFrom (List.length pre) rest) =
    match List.filter test (alternate (Nat.even (List.length pre)) rest) with
    | [] => final
    | k :: _ => g k
    end.
Proof.
  induction rest as [|a rest IH]; intros pre; [reflexivity|].
  cbn [enumerateFrom rangeReturn alternate]. rewrite mod2_even.
  specialize (IH (pre ++ [a])).
  rewrite <- app_assoc, length_app in IH. cbn [List.length app] in IH.
  replace (List.length pre + 1) with (S (List.length pre)) in IH by lia.
  rewrite Nat.even_succ, <- Nat.negb_even in IH.
  destruct (Nat.even (List.length pre)); cbn [andb negb] in *.
  - cbn [List.filter]. destruct (test a).
    + rewrite indexNode_here. reflexivity.
    + exact IH.
  - exact IH.
Qed.

Lemma rangeAppend_keys (test : Node -> bool) (rest : list Node) :
  forall pre,
    rangeAppend (fun i n => (i mod 2 =? 0) && test n)
      (fun i _ => c <- indexNode (pre ++ rest) i ;; Ok (lift [c]))
      (enumerateFrom (List.length pre) rest) =
    Ok (List.map (fun k => [k])
          (List.filter test (alternate (Nat.even (List.length pre)) rest))).
Proof.
  induction rest as [|a rest IH]; intros pre; [reflexivity|].
  cbn [enumerateFrom rangeAppend alternate]. rewrite mod2_even.
  specialize (IH (pre ++ [a])).
  rewrite <- app_assoc, length_app in IH. cbn [List.length app] in IH.
  replace (List.length pre + 1) with (S (List.length pre)) in IH by lia.
  rewrite Nat.even_succ, <- Nat.negb_even in IH.
  destruct (Nat.even (List.length pre)); cbn [andb negb] in *.
  - cbn [List.filter]. destruct (test a).
    + rewrite indexNode_here, IH. reflexivity.
    + exact IH.
  - exact IH.
Qed.

(** X3: the property-name child step [.name~] applied to a Mapping emits
    the first key node equal to the unescaped name, fed through the next
    path, and nothing when no key is equal to it; applied to a node of any
    other kind it emits nothing. It reads the key at the index of the loop,
    so it never panics on its own, whatever the length of the content. *)
Theorem propertyNameChild_emits_first_equal_key :
  forall (childName : string) (p : Path) (node root : Node),
    f (propertyNameChildThen childName p) node root =
    if isMapping node
    then match keysNamed (Content node) (unescape childName) with
         | [] => Ok []
         | k :: _ => f p k root
         end
    else Ok [].
Proof.
  intros childName p node root. cbn [f propertyNameChildThen].
  destruct (isMapping node); [|reflexivity]. cbn [negb].
  pose proof (rangeReturn_first_key
                (fun n => String.eqb (Value n) (unescape childName))
                (fun c => compose (lift [c]) p root)
                (empty node root) (Content node) []) as E.
  cbn [app List.length Nat.even] in E. unfold enumerate. rewrite E.
  unfold keysNamed, keys.
  destruct (List.filter _ (alternate true (Content node))); [reflexivity|].
  apply compose_single.
Qed.

(** X5: the wildcard child step [.*] feeds through the next path, in
    order, the values of a Mapping or the elements of a Sequence, and emits
    nothing for a node of any other kind; [childThen] with the name [*] is
    that step. *)
Theorem childThen_star_emits_all_children :
  forall (p : Path) (node root : Node),
    f (childThen "*" p) node root = feed (children node) p root
    /\ f (allChildrenThen p) node root = feed (children node) p root
    /\ (forall i, nth_error (values (Content node)) i
                  = nth_error (Content node) (2 * i + 1)).
Proof.
  intros p node root. split; [|split].
  - apply allChildrenThen_feed.
  - apply allChildrenThen_feed.
  - intros i. apply nth_error_alternate.
Qed.

(** X1: the child step [.name], for a name other than [*], applied to a
    Mapping whose content holds its keys and values in pairs, emits the
    value of the first key equal to the unescaped name, fed through the
    next path, and nothing when no key is equal to it; applied to a node of
    any other kind it emits nothing. *)
Theorem childThen_emits_the_first_value :
  forall (childName : string) (p : Path) (node root : Node),
    String.eqb childName "*" = false ->
    Nat.even (List.length (Content node)) = true ->
    f (childThen childName p) node root =
      feed (firstValue node (unescape childName)) p root
    /\ List.length (firstValue node (unescape childName)) <= 1
    /\ (isMapping node = false -> f (childThen childName p) node root = Ok []).
Proof.
  intros childName p node root Hstar Heven.
  rewrite (childThen_first_value childName p node root Hstar Heven).
  unfold firstValue. split; [|split].
  - destruct (isMapping node); [|reflexivity].
    destruct (valuesOf (Content node) (unescape childName)) as [|v vs];
      [reflexivity|].
    cbn [List.firstn]. symmetry. apply feed_single.
  - destruct (isMapping node); [|simpl; lia].
    destruct (valuesOf (Content node) (unescape childName)); simpl; lia.
  - intros ->. reflexivity.
Qed.

Lemma childThen_emits_the_first_value_witness :
  String.eqb "a" "*" = false
  /\ Nat.even (List.length (Content twice)) = true
  /\ f (childThen "a" (new identity)) twice twice =
       feed (firstValue twice (unescape "a")) (new identity) twice
  /\ List.length (firstValue twice (unescape "a")) <= 1
  /\ (isMapping twice = false ->
      f (childThen "a" (new identity)) twice twice = Ok []).
Proof.
  split; [reflexivity|]. split; [reflexivity|].
  apply (childThen_emits_the_first_value "a" (new identity) twice twice);
    reflexivity.
Defined.

Lemma rangeReturn_dangling_key (name : string) (p : Path) (root k : Node)
    (rest : list Node) :
  forall pre,
    Nat.even (List.length pre) = true ->
    Nat.even (List.length rest) = true ->
    valuesOf rest name = [] ->
    String.eqb (Value k) name = true ->
    rangeReturn
      (fun i n => (i mod 2 =? 0) && String.eqb (Value n) name)
      (fun i _ => c <- indexNode (pre ++ rest ++ [k]) (i + 1) ;;
                  compose (lift [c]) p root)
      (Ok [])
      (enumerateFrom (List.length pre) (rest ++ [k])) =
    Panic (IndexOutOfRange (List.length pre + List.length rest + 1)
             (List.length pre + List.length rest + 1)).
Proof.
  induction rest as [|a|a b rest IH] using pair_induction;
    intros pre Hpre Hrest Hnone Hk.
  - cbn [app enumerateFrom rangeReturn]. rewrite mod2_even, Hpre, Hk.
    cbn [andb]. unfold indexNode.
    replace (nth_error (pre ++ [k]) (List.length pre + 1)) with (@None Node).
    + rewrite length_app. cbn [List.length bind].
      rewrite Nat.add_0_r. reflexivity.
    + symmetry. apply nth_error_None. rewrite length_app. simpl. lia.
  - discriminate.
  - unfold valuesOf in Hnone. cbn [pairs List.filter fst] in Hnone.
    destruct (String.eqb (Value a) name) eqn:Ea; [discriminate Hnone|].
    cbn [app enumerateFrom rangeReturn].
    rewrite !mod2_even, Nat.even_succ, <- Nat.negb_even, Hpre, Ea.
    cbn [negb andb].
    specialize (IH (pre ++ [a; b])).
    rewrite <- app_assoc, length_app in IH. cbn [List.length app] in IH.
    replace (List.length pre + 2) with (S (S (List.length pre))) in IH by lia.
    rewrite IH; [|rewrite even_SS; exact Hpre | exact Hrest | exact Hnone
                 | exact Hk].
    cbn [List.length]. f_equal. f_equal; lia.
Qed.

(** X2: the child step [.name] reads the value at the index after the key
    it found. On a Mapping whose content ends in a key without a value,
    when that last key is the first one equal to the name, the step panics
    with an index out of range instead of emitting nothing. *)
Theorem childThen_panics_on_a_key_without_value :
  forall (childName : string) (p : Path) (tag value : string)
         (pre : list Node) (k root : Node),
    String.eqb childName "*" = false ->
    Nat.even (List.length pre) = true ->
    valuesOf pre (unescape childName) = [] ->
    String.eqb (Value k) (unescape childName) = true ->
    f (childThen childName p)
      (mkNode yaml.MappingNode tag value (pre ++ [k])) root =
    Panic (IndexOutOfRange (List.length pre + 1) (List.length pre + 1)).
Proof.
  intros childName p tag value pre k root Hstar Hpre Hnone Hk.
  unfold childThen. rewrite Hstar. cbn [f isMapping Kind yaml.Kind_eqb negb].
  cbn [Content]. unfold enumerate.
  pose proof (rangeReturn_dangling_key (unescape childName) p root k pre []
                eq_refl Hpre Hnone Hk) as E.
  cbn [app List.length] in E. exact E.
Qed.

Lemma childThen_panics_witness :
  String.eqb "b" "*" = false
  /\ Nat.even (List.length [scalar "a"; scalar "1"]) = true
  /\ valuesOf [scalar "a"; scalar "1"] (unescape "b") = []
  /\ String.eqb (Value (scalar "b")) (unescape "b") = true
  /\ f (childThen "b" (new identity))
       (mkNode yaml.MappingNode "!!map" EmptyString
          ([scalar "a"; scalar "1"] ++ [scalar "b"])) sample =
     Panic (IndexOutOfRange (List.length [scalar "a"; scalar "1"] + 1)
              (List.length [scalar "a"; scalar "1"] + 1)).
Proof.
  split; [reflexivity|]. split; [reflexivity|]. split; [reflexivity|].
  split; [reflexivity|].
  apply (childThen_panics_on_a_key_without_value "b" (new identity)
           "!!map" EmptyString [scalar "a"; scalar "1"] (scalar "b") sample);
    reflexivity.
Defined.

(** ** Array subscripts *)

Lemma rangeAppend_select (p : Path) (root : Node) (content : list Node)
    (idx : list Z) :
  forall k,
    rangeAppend
      (fun _ s => (0 <=? s)%Z && (s <? Z.of_nat (List.length content))%Z)
      (fun _ s => c <- indexNode content (Z.to_nat s) ;;
                  compose (lift [c]) p root)
      (enumerateFrom k idx) =
    mapM (fun c => compose (lift [c]) p root) (select content idx).
Proof.
  induction idx as [|s idx IH]; intros k; [reflexivity|].
  cbn [enumerateFrom rangeAppend]. unfold select in *.
  cbn [List.flat_map].
  destruct ((0 <=? s)%Z && (s <? Z.of_nat (List.length content))%Z) eqn:E.
  - apply andb_true_iff in E. destruct E as [E0 E1].
    apply Z.leb_le in E0. apply Z.ltb_lt in E1.
    unfold indexNode.
    destruct (nth_error content (Z.to_nat s)) as [c|] eqn:En.
    + cbn [bind app mapM]. rewrite IH. reflexivity.
    + apply nth_error_None in En. lia.
  - cbn [app]. apply IH.
Qed.

(** X6: the array-subscript step. On a Mapping the subscript [*] emits the
    values; on any other node that is no Sequence the step emits nothing;
    on a Sequence it emits the elements at the indices [slice] returns, in
    that order, an index outside the sequence being dropped, each fed
    through the next path; the only panic of its own is the one on an error
    of [slice]. *)
Theorem arraySubscript_emits_the_selected_elements :
  forall (subscript : string) (p : Path) (node root : Node),
    f (arraySubscriptThen subscript p) node root =
    if isMapping node && String.eqb subscript "*"
    then feed (values (Content node)) p root
    else if negb (isSequence node) then Ok []
    else match slice subscript (List.length (Content node)) with
         | inl err => Panic (PanicError err)
         | inr idx => feed (select (Content node) idx) p root
         end.
Proof.
  intros subscript p node root. cbn [f arraySubscriptThen].
  destruct (isMapping node && String.eqb subscript "*").
  - unfold enumerate.
    rewrite (rangeAppend_alternate (fun i => negb (i mod 2 =? 0))
               (fun c => compose (lift [c]) p root)).
    + apply flatten_mapM_compose.
    + intros i. rewrite !mod2_even, Nat.even_succ, <- Nat.negb_even.
      reflexivity.
  - destruct (negb (isSequence node)); [reflexivity|].
    destruct (slice subscript (List.length (Content node))) as [err|idx];
      [reflexivity|].
    unfold enumerate. rewrite rangeAppend_select.
    apply flatten_mapM_compose.
Qed.

(** ** Escapes *)

Lemma byteZ_eqb (c q : ascii) :
  (utf8.byteZ c =? utf8.byteZ q)%Z = Ascii.eqb c q.
Proof.
  destruct (Ascii.eqb_spec c q) as [-> | Hne].
  - apply Z.eqb_refl.
  - apply Z.eqb_neq. intros E. apply Hne.
    rewrite <- (zbyte_byteZ c), E. apply zbyte_byteZ.
Qed.

Lemma asciiOnly_escape (s : string) :
  asciiOnly s = true -> asciiOnly (escape s) = true.
Proof.
  induction s as [|c s IH]; [reflexivity|].
  cbn [asciiOnly escape]. intros H. apply andb_true_iff in H.
  destruct H as [Hc Hs].
  destruct ((utf8.byteZ c =? 92) || (utf8.byteZ c =? 39)
            || (utf8.byteZ c =? 34))%Z;
    cbn [asciiOnly]; rewrite Hc, (IH Hs); reflexivity.
Qed.

Lemma append_byte (esc : string) (c : ascii) (s : string) :
  ((esc ++ String c EmptyString) ++ s = esc ++ String c s)%string.
Proof. rewrite append_assoc. reflexivity. Qed.

Lemma unescapeLoop_escape (s : string) :
  forall esc,
    asciiOnly s = true ->
    unescapeLoop (List.map fst (byteSegments (escape s))) esc false
    = (esc ++ s)%string.
Proof.
  induction s as [|c s IH]; intros esc H.
  - simpl. induction esc as [|e esc IHe]; simpl; congruence.
  - cbn [asciiOnly] in H. apply andb_true_iff in H. destruct H as [Hc Hs].
    cbn [escape].
    destruct (utf8.byteZ c =? 92)%Z eqn:E92.
    + cbn [orb byteSegments List.map fst unescapeLoop].
      change (utf8.byteZ "\" =? 92)%Z with true. cbv iota. cbn [negb].
      rewrite E92. cbn [negb].
      rewrite (string_of_rune_ascii c Hc), (IH _ Hs).
      apply append_byte.
    + cbn [orb]. destruct ((utf8.byteZ c =? 39) || (utf8.byteZ c =? 34))%Z.
      * cbn [orb byteSegments List.map fst unescapeLoop].
        change (utf8.byteZ "\" =? 92)%Z with true. cbv iota. cbn [negb].
        rewrite E92.
        rewrite (string_of_rune_ascii c Hc), (IH _ Hs).
        apply append_byte.
      * cbn [orb byteSegments List.map fst unescapeLoop].
        rewrite E92, (string_of_rune_ascii c Hc), (IH _ Hs).
        apply append_byte.
Qed.

Lemma unescapeLoop_no_backslash (s : string) :
  forall esc,
    asciiOnly s = true -> free "\" s = true ->
    unescapeLoop (List.map fst (byteSegments s)) esc false = (esc ++ s)%string.
Proof.
  induction s as [|c s IH]; intros esc H F.
  - simpl. induction esc as [|e esc IHe]; simpl; congruence.
  - cbn [asciiOnly] in H. apply andb_true_iff in H. destruct H as [Hc Hs].
    cbn [free] in F. apply andb_true_iff in F. destruct F as [Fc Fs].
    apply negb_true_iff in Fc.
    cbn [byteSegments List.map fst unescapeLoop].
    assert (E : (utf8.byteZ c =? 92)%Z = false)
      by (rewrite <- Fc; apply (byteZ_eqb c "\")).
    rewrite E, (string_of_rune_ascii c Hc), (IH _ Hs Fs).
    apply append_byte.
Qed.

Lemma unescape_no_backslash (s : string) :
  asciiOnly s = true -> free "\" s = true -> unescape s = s.
Proof.
  intros H F. unfold unescape, strings.runes.
  rewrite segments_ascii by auto.
  apply (unescapeLoop_no_backslash s EmptyString H F).
Qed.

(** X7: [unescape] undoes backslash escapes. On a string of ASCII bytes,
    escaping every backslash and quote with a backslash and unescaping the
    result gives the string back, and a string without a backslash is left
    as it is. *)
Theorem unescape_undoes_escape :
  forall (s : string),
    asciiOnly s = true ->
    unescape (escape s) = s
    /\ (free "\" s = true -> unescape s = s).
Proof.
  intros s H. split.
  - unfold unescape, strings.runes.
    rewrite segments_ascii by (auto using asciiOnly_escape).
    apply (unescapeLoop_escape s EmptyString H).
  - intros F. apply unescape_no_backslash; assumption.
Qed.

Lemma unescape_witness :
  asciiOnly "it's a \ path" = true
  /\ unescape (escape "it's a \ path") = "it's a \ path"
  /\ (free "\" "it's a \ path" = true ->
      unescape "it's a \ path" = "it's a \ path").
Proof.
  split; [reflexivity|].
  apply (unescape_undoes_escape "it's a \ path"). reflexivity.
Defined.

(** ** Child names with embedded commas *)

Lemma simpleByte_bytes (c : ascii) :
  simpleByte c = true ->
  (utf8.byteZ c <? 128)%Z = true
  /\ (utf8.byteZ c =? 39)%Z = false
  /\ (utf8.byteZ c =? 34)%Z = false
  /\ (utf8.byteZ c =? 92)%Z = false.
Proof.
  unfold simpleByte. cbv zeta.
  rewrite !andb_true_iff, !negb_true_iff. tauto.
Qed.

Lemma simple_asciiOnly (s : string) : simple s = true -> asciiOnly s = true.
Proof.
  induction s as [|c s IH]; simpl; [reflexivity|].
  intros H. apply andb_true_iff in H. destruct H as [Hc Hs].
  destruct (simpleByte_bytes c Hc) as [H128 _].
  rewrite H128, (IH Hs). reflexivity.
Qed.

Lemma simple_append (s t : string) : simple (s ++ t) = simple s && simple t.
Proof.
  induction s as [|c s IH]; simpl; [reflexivity|].
  rewrite IH, andb_assoc. reflexivity.
Qed.

Lemma balanced_ascii (c : string) (q : Z) :
  asciiOnly c = true ->
  balanced c q = balancedLoop (byteSegments c) q 0 true eof.
Proof.
  intros H. unfold balanced. rewrite segments_ascii by auto. reflexivity.
Qed.

Lemma balancedLoop_simple (q : Z) (s : string) :
  forall i bal prev,
    q = 39%Z \/ q = 34%Z ->
    simple s = true ->
    balancedLoop (byteSegments s) q i bal prev = bal.
Proof.
  induction s as [|c s IH]; intros i bal prev Hq H; [reflexivity|].
  simpl in H. apply andb_true_iff in H. destruct H as [Hc Hs].
  destruct (simpleByte_bytes c Hc) as [_ [H39 [H34 _]]].
  cbn [byteSegments balancedLoop].
  replace (utf8.byteZ c =? q)%Z with false by (destruct Hq; subst; auto).
  apply IH; assumption.
Qed.

Lemma balancedLoop_simple_then_quote (s : string) :
  forall i bal prev,
    (prev =? 92)%Z = false ->
    simple s = true ->
    balancedLoop (byteSegments (s ++ "'")) 39 i bal prev = negb bal.
Proof.
  induction s as [|c s IH]; intros i bal prev Hprev H.
  - cbn. rewrite Hprev, andb_false_r. reflexivity.
  - simpl in H. apply andb_true_iff in H. destruct H as [Hc Hs].
    destruct (simpleByte_bytes c Hc) as [_ [H39 [_ H92]]].
    cbn [append byteSegments balancedLoop]. rewrite H39.
    apply IH; assumption.
Qed.

Lemma opening_unbalanced (a : string) :
  simple a = true ->
  balanced ("'" ++ a) 39 && balanced ("'" ++ a) 34 = false.
Proof.
  intros H. rewrite balanced_ascii
    by (cbn [append asciiOnly]; rewrite (simple_asciiOnly a H); reflexivity).
  cbn [append byteSegments balancedLoop].
  change (utf8.byteZ "'" =? 39)%Z with true. cbv iota.
  change (eof =? 92)%Z with false. rewrite andb_false_r.
  rewrite balancedLoop_simple by auto. reflexivity.
Qed.

Lemma closing_unbalanced (b : string) :
  simple b = true ->
  balanced (b ++ "'") 39 && balanced (b ++ "'") 34 = false.
Proof.
  intros H. rewrite balanced_ascii
    by (rewrite asciiOnly_append, (simple_asciiOnly b H); reflexivity).
  rewrite balancedLoop_simple_then_quote by auto. reflexivity.
Qed.

Lemma simple_balanced (s : string) :
  simple s = true -> balanced s 39 && balanced s 34 = true.
Proof.
  intros H. rewrite !balanced_ascii by (apply simple_asciiOnly, H).
  rewrite !balancedLoop_simple by auto. reflexivity.
Qed.

Lemma quoted_balanced (s : string) :
  simple s = true -> balanced (quoted s) 39 && balanced (quoted s) 34 = true.
Proof.
  intros H.
  assert (Ha : asciiOnly (quoted s) = true).
  { unfold quoted. rewrite !asciiOnly_append, (simple_asciiOnly s H).
    reflexivity. }
  rewrite !balanced_ascii by exact Ha. unfold quoted.
  change ("'" ++ s ++ "'")%string with (String "'" (s ++ "'"))%string.
  cbn [byteSegments balancedLoop].
  change (utf8.byteZ "'" =? 39)%Z with true.
  change (utf8.byteZ "'" =? 34)%Z with false. cbv iota.
  change (eof =? 92)%Z with false. rewrite andb_false_r.
  rewrite balancedLoop_simple_then_quote by auto.
  assert (G : forall t i bal prev,
             simple t = true ->
             balancedLoop (byteSegments (t ++ "'")) 34 i bal prev = bal).
  { induction t as [|c t IHt]; intros i bal prev Ht; [reflexivity|].
    simpl in Ht. apply andb_true_iff in Ht. destruct Ht as [Hc Ht].
    destruct (simpleByte_bytes c Hc) as [_ [_ [H34 _]]].
    cbn [append byteSegments balancedLoop]. rewrite H34. apply IHt, Ht. }
  rewrite G by exact H. reflexivity.
Qed.

Lemma Split_nonempty (s : string) (sep : ascii) : strings.Split s sep <> [].
Proof.
  destruct s as [|c s]; simpl; [discriminate|].
  destruct (Ascii.eqb c sep); [discriminate|].
  destruct (strings.Split s sep); discriminate.
Qed.

Lemma Split_at_separator (sep : ascii) (s r : string) :
  strings.Split (s ++ String sep r) sep =
  strings.Split s sep ++ strings.Split r sep.
Proof.
  induction s as [|c s IH]; simpl.
  - rewrite Ascii.eqb_refl. reflexivity.
  - destruct (Ascii.eqb c sep); rewrite IH; [reflexivity|].
    pose proof (Split_nonempty s sep) as Hne.
    destruct (strings.Split s sep); [contradiction Hne|]; reflexivity.
Qed.

Lemma concat_cons (sep x : string) (l : list string) :
  l <> [] ->
  String.concat sep (x :: l) = (x ++ sep ++ String.concat sep l)%string.
Proof. destruct l; [intros H; contradiction H|]; reflexivity. Qed.

Lemma concat_Split (s : string) :
  String.concat "," (strings.Split s ",") = s.
Proof.
  induction s as [|c s IH]; [reflexivity|].
  cbn [strings.Split]. pose proof (Split_nonempty s ",") as Hne.
  destruct (Ascii.eqb_spec c ",") as [-> | Hc].
  - rewrite concat_cons by exact Hne. rewrite IH. reflexivity.
  - destruct (strings.Split s ",") as [|x xs];
      [contradiction Hne; reflexivity|].
    destruct xs as [|y ys].
    + cbn [String.concat] in *. rewrite IH. reflexivity.
    + rewrite concat_cons in * by discriminate.
      rewrite <- IH. reflexivity.
Qed.

Lemma Forall_Split_simple (s : string) :
  simple s = true ->
  Forall (fun piece => simple piece = true) (strings.Split s ",").
Proof.
  induction s as [|c s IH]; intros H.
  - repeat constructor.
  - simpl in H. apply andb_true_iff in H. destruct H as [Hc Hs].
    specialize (IH Hs). cbn [strings.Split].
    destruct (Ascii.eqb c ","); [constructor; [reflexivity | exact IH]|].
    destruct (strings.Split s ",") as [|x xs]; [repeat constructor|].
    + simpl. rewrite Hc. reflexivity.
    + inversion IH; subst. constructor; [|assumption].
      simpl. rewrite Hc. assumption.
Qed.

(** A string with a comma in it, cut at its first and at its last comma. *)
Lemma first_comma (s : string) :
  free "," s = false ->
  exists a r, s = (a ++ String "," r)%string /\ free "," a = true.
Proof.
  induction s as [|c s IH]; [discriminate|].
  cbn [free]. destruct (Ascii.eqb_spec c ",") as [-> | Hc].
  - intros _. exists EmptyString, s. split; reflexivity.
  - cbn [negb andb]. intros H. destruct (IH H) as [a [r [-> Ha]]].
    exists (String c a), r. split; [reflexivity|].
    cbn [free]. rewrite Ha.
    destruct (Ascii.eqb_spec c ","); [contradiction|reflexivity].
Qed.

Lemma last_comma (s : string) :
  free "," s = false ->
  exists m b, s = (m ++ String "," b)%string /\ free "," b = true.
Proof.
  induction s as [|c s IH]; [discriminate|].
  destruct (free "," s) eqn:Fs.
  - cbn [free]. rewrite Fs, andb_true_r. intros H.
    apply negb_false_iff in H.
    destruct (Ascii.eqb_spec c ",") as [-> | ]; [|discriminate].
    exists EmptyString, s. split; [reflexivity | exact Fs].
  - intros _. destruct (IH eq_refl) as [m [b [-> Hb]]].
    exists (String c m), b. split; [reflexivity | exact Hb].
Qed.

(** The pieces of a quoted name that holds a comma: the opening piece, the
    pieces in between and the closing piece. *)
Lemma Split_quoted (name : string) :
  free "," name = false ->
  exists a mid b,
    strings.Split (quoted name) "," = ("'" ++ a)%string :: mid ++ [(b ++ "'")%string]
    /\ (simple name = true ->
        simple a = true /\ simple b = true
        /\ Forall (fun piece => simple piece = true) mid)
    /\ String.concat "," (("'" ++ a)%string :: mid ++ [(b ++ "'")%string])
       = quoted name.
Proof.
  intros Hname. destruct (first_comma name Hname) as [a [r [-> Ha]]].
  destruct (free "," r) eqn:Fr.
  - exists a, [], r. split; [|split].
    + unfold quoted.
      change ("'" ++ (a ++ String "," r) ++ "'")%string
        with (String "'" ((a ++ String "," r) ++ "'"))%string.
      rewrite append_assoc. cbn [append].
      change (String "'" (a ++ String "," (r ++ "'")))%string
        with (("'" ++ a) ++ String "," (r ++ "'"))%string.
      rewrite Split_at_separator.
      rewrite (Split_free "," ("'" ++ a))
        by (cbn [append free]; rewrite Ha; reflexivity).
      rewrite (Split_free "," (r ++ "'"))
        by (rewrite free_append, Fr; reflexivity).
      reflexivity.
    + intros Hs. rewrite simple_append in Hs. cbn [simple] in Hs.
      rewrite !andb_true_iff in Hs. repeat split; try tauto. constructor.
    + cbn [app String.concat]. unfold quoted.
      rewrite !append_assoc. reflexivity.
  - destruct (last_comma r Fr) as [m [b [-> Hb]]].
    exists a, (strings.Split m ","), b. split; [|split].
    + unfold quoted.
      replace ("'" ++ (a ++ String "," (m ++ String "," b)) ++ "'")%string
        with (("'" ++ a) ++ String "," (m ++ String "," (b ++ "'")))%string
        by (rewrite !append_assoc; cbn [append]; rewrite !append_assoc;
            reflexivity).
      rewrite !Split_at_separator.
      rewrite (Split_free "," ("'" ++ a))
        by (cbn [append free]; rewrite Ha; reflexivity).
      rewrite (Split_free "," (b ++ "'"))
        by (rewrite free_append, Hb; reflexivity).
      reflexivity.
    + intros Hs. rewrite !simple_append in Hs. cbn [simple] in Hs.
      rewrite !simple_append in Hs. cbn [simple] in Hs.
      rewrite !andb_true_iff in Hs.
      repeat split; try tauto. apply Forall_Split_simple. tauto.
    + pose proof (Split_nonempty m ",") as Hne.
      rewrite concat_cons by (destruct (strings.Split m ","); discriminate).
      assert (E : forall l x,
                 l <> [] ->
                 String.concat "," (l ++ [x])
                 = (String.concat "," l ++ "," ++ x)%string).
      { induction l as [|y l IHl]; intros x Hl; [contradiction Hl; reflexivity|].
        destruct l as [|z l]; [reflexivity|].
        change ((y :: z :: l) ++ [x]) with (y :: ((z :: l) ++ [x])).
        rewrite concat_cons by discriminate.
        rewrite IHl by discriminate.
        rewrite (concat_cons "," y (z :: l)) by discriminate.
        rewrite !append_assoc. reflexivity. }
      rewrite E by exact Hne. rewrite concat_Split. unfold quoted.
      rewrite !append_assoc. cbn [append]. rewrite !append_assoc.
      reflexivity.
Qed.

Lemma reconstitute_pending (last : string) (rest : list string)
    (mid : list string) :
  forall acc children,
    String.eqb acc EmptyString = false ->
    Forall (fun c => balanced c 39 && balanced c 34 = true) mid ->
    balanced last 39 && balanced last 34 = false ->
    reconstitute (mid ++ last :: rest) children acc =
    reconstitute rest
      (children ++ [String.concat "," (acc :: mid ++ [last])]) EmptyString.
Proof.
  induction mid as [|m mid IH]; intros acc children Hacc Hmid Hlast.
  - cbn [app reconstitute]. rewrite Hlast, Hacc. reflexivity.
  - inversion Hmid as [|m' mid' Hm Hmid']; subst.
    cbn [app reconstitute]. rewrite Hm, Hacc. cbn [negb].
    rewrite IH; [|destruct acc; [discriminate Hacc | reflexivity]
                 | exact Hmid' | exact Hlast].
    f_equal. f_equal. f_equal.
    rewrite (concat_cons "," acc) by discriminate.
    rewrite (concat_cons "," (acc ++ "," ++ m))
      by (destruct mid; discriminate).
    change (m :: mid ++ [last]) with (m :: (mid ++ [last])).
    rewrite (concat_cons "," m) by (destruct mid; discriminate).
    rewrite !append_assoc. reflexivity.
Qed.

Lemma reconstitute_quoted (name : string) (rest children : list string) :
  simple name = true ->
  reconstitute (strings.Split (quoted name) "," ++ rest) children EmptyString
  = reconstitute rest (children ++ [quoted name]) EmptyString.
Proof.
  intros H. destruct (free "," name) eqn:F.
  - rewrite Split_free
      by (unfold quoted; rewrite !free_append, F; reflexivity).
    cbn [app reconstitute]. rewrite (quoted_balanced name H). reflexivity.
  - destruct (Split_quoted name F) as [a [mid [b [E [Hs Hjoin]]]]].
    destruct (Hs H) as [Ha [Hb Hmid]].
    rewrite E. cbn [app reconstitute].
    rewrite (opening_unbalanced a Ha). cbn [String.eqb].
    rewrite <- app_assoc. cbn [app].
    rewrite reconstitute_pending.
    + rewrite Hjoin. reflexivity.
    + reflexivity.
    + apply Forall_forall. intros c Hc. apply simple_balanced.
      rewrite Forall_forall in Hmid. apply Hmid, Hc.
    + apply closing_unbalanced, Hb.
Qed.

Lemma Split_listed_names (names : list string) :
  names <> [] ->
  strings.Split (listed names) "," =
  List.flat_map (fun name => strings.Split (quoted name) ",") names.
Proof.
  induction names as [|name names IH]; intros Hne;
    [contradiction Hne; reflexivity|].
  unfold listed in *. destruct names as [|name' names].
  - cbn [List.map String.concat List.flat_map]. rewrite app_nil_r.
    reflexivity.
  - cbn [List.map] in *. rewrite concat_cons by discriminate.
    change ("," ++ ?s)%string with (String "," s).
    rewrite Split_at_separator, IH by discriminate. reflexivity.
Qed.

Lemma reconstitute_names (names : list string) :
  forall children,
    Forall (fun name => simple name = true) names ->
    reconstitute
      (List.flat_map (fun name => strings.Split (quoted name) ",") names)
      children EmptyString
    = (children ++ List.map quoted names, EmptyString).
Proof.
  induction names as [|name names IH]; intros children H.
  - simpl. rewrite app_nil_r. reflexivity.
  - inversion H as [|n ns Hname Hnames]; subst.
    cbn [List.flat_map List.map].
    rewrite (reconstitute_quoted name _ children Hname), (IH _ Hnames).
    rewrite <- app_assoc. reflexivity.
Qed.

Lemma simple_no_backslash (s : string) : simple s = true -> free "\" s = true.
Proof.
  induction s as [|c s IH]; simpl; [reflexivity|].
  intros H. apply andb_true_iff in H. destruct H as [Hc Hs].
  destruct (simpleByte_bytes c Hc) as [_ [_ [_ H92]]].
  pose proof (byteZ_eqb c "\") as E. change (utf8.byteZ "\") with 92%Z in E.
  rewrite (IH Hs), andb_true_r, <- E, H92. reflexivity.
Qed.

Lemma unquote_quoted_simple (name : string) :
  simple name = true -> unquote (quoted name) = name.
Proof.
  intros H. unfold unquote.
  assert (Ha : asciiOnly (quoted name) = true).
  { unfold quoted. rewrite !asciiOnly_append, (simple_asciiOnly name H).
    reflexivity. }
  assert (Ht : strings.TrimSpace (quoted name) = quoted name).
  { unfold strings.TrimSpace. rewrite segments_ascii by auto.
    rewrite <- (concat_byteSegments (quoted name)) at 2. f_equal. f_equal.
    unfold quoted.
    change ("'" ++ name ++ "'")%string with (String "'" (name ++ "'"))%string.
    cbn [byteSegments]. rewrite byteSegments_append.
    apply dropWhileSpace_edges; reflexivity. }
  rewrite Ht. unfold quoted.
  change ("'" ++ name ++ "'")%string with (String "'" (name ++ "'"))%string.
  cbn [strings.HasPrefix]. rewrite Ascii.eqb_refl. cbn [andb].
  replace (strings.HasPrefix (name ++ "'") EmptyString) with true
    by (destruct (name ++ "'")%string; reflexivity).
  rewrite TrimPrefix_byte, TrimSuffix_append.
  apply unescape_no_backslash;
    [apply simple_asciiOnly, H | apply simple_no_backslash, H].
Qed.

(** X8: [bracketChildNames] puts child names with embedded commas together
    again. For child names of ASCII bytes without a quote or a backslash,
    commas allowed, written between single quotes and separated by commas,
    it returns the names themselves, in the order written. *)
Theorem bracketChildNames_reads_names_with_commas :
  forall (names : list string),
    names <> [] ->
    Forall (fun name => simple name = true) names ->
    bracketChildNames (listed names) = names.
Proof.
  intros names Hne H. unfold bracketChildNames.
  rewrite (Split_listed_names names Hne), (reconstitute_names names [] H).
  cbn [String.eqb negb app]. rewrite map_map.
  clear Hne. induction H as [|name names Hname Hnames IH]; [reflexivity|].
  cbn [List.map]. rewrite (unquote_quoted_simple name Hname), IH.
  reflexivity.
Qed.

Lemma bracketChildNames_witness :
  ["a,b"; ","; "c d"; "e,,f"] <> []
  /\ Forall (fun name => simple name = true) ["a,b"; ","; "c d"; "e,,f"]
  /\ bracketChildNames (listed ["a,b"; ","; "c d"; "e,,f"])
     = ["a,b"; ","; "c d"; "e,,f"].
Proof.
  assert (H1 : ["a,b"; ","; "c d"; "e,,f"] <> []) by discriminate.
  assert (H2 : Forall (fun name => simple name = true)
                 ["a,b"; ","; "c d"; "e,,f"])
    by (repeat constructor).
  split; [exact H1|]. split; [exact H2|].
  apply (bracketChildNames_reads_names_with_commas _ H1 H2).
Defined.

(** ** The bracket steps over the names as written *)

Lemma bracketChildNames_simple (names : list string) :
  names <> [] ->
  Forall (fun name => simple name = true) names ->
  bracketChildNames (listed names) = names.
Proof.
  intros Hne H. unfold bracketChildNames.
  rewrite (Split_listed_names names Hne), (reconstitute_names names [] H).
  cbn [String.eqb negb app]. rewrite map_map.
  clear Hne. induction H as [|name names Hname Hnames IH]; [reflexivity|].
  cbn [List.map]. rewrite (unquote_quoted_simple name Hname), IH.
  reflexivity.
Qed.

(** X4: the property-name bracket step applied to a Mapping emits, for each
    name [bracketChildNames] reads off the text of the step, in that order,
    every key node equal to that name in document order, fed through the
    next path; applied to a node of any other kind it emits nothing; no
    length of the content makes it panic. When the text of the step is a
    list of names of ASCII bytes without a quote or a backslash, commas
    allowed, each between single quotes, the names read are the names
    written: the step emits, for each name in the order written, every key
    node equal to it in document order. *)
Theorem propertyNameBracketChild_emits_equal_keys :
  forall (childNames : string) (p : Path) (node root : Node),
    f (propertyNameBracketChildThen childNames p) node root =
      (if isMapping node
       then feed (List.flat_map (keysNamed (Content node))
                    (bracketChildNames childNames)) p root
       else Ok [])
    /\ (forall names,
          names <> [] ->
          Forall (fun name => simple name = true) names ->
          childNames = listed names ->
          f (propertyNameBracketChildThen childNames p) node root =
          if isMapping node
          then feed (List.flat_map (keysNamed (Content node)) names) p root
          else Ok []).
Proof.
  intros childNames p node root.
  assert (E : f (propertyNameBracketChildThen childNames p) node root =
              if isMapping node
              then feed (List.flat_map (keysNamed (Content node))
                           (bracketChildNames childNames)) p root
              else Ok []).
  { cbn [f propertyNameBracketChildThen].
    destruct (isMapping node); [|reflexivity]. cbn [negb].
    rewrite (mapM_ext _ (fun name =>
               Ok (List.map (fun k => [k]) (keysNamed (Content node) name)))).
    - rewrite mapM_Ok. cbn [bind]. rewrite compose_feed. f_equal.
      unfold flatten.
      induction (bracketChildNames childNames) as [|x names IH].
      + reflexivity.
      + cbn [List.map List.concat List.flat_map].
        rewrite concat_app, concat_singletons, IH. reflexivity.
    - intros name.
      apply (rangeAppend_keys (fun n => String.eqb (Value n) name)
               (Content node) []). }
  split; [exact E|].
  intros names Hne Hnames ->. rewrite E.
  rewrite (bracketChildNames_simple names Hne Hnames). reflexivity.
Qed.

Lemma propertyNameBracketChild_witness :
  ["c"; "a,b"] <> []
  /\ Forall (fun name => simple name = true) ["c"; "a,b"]
  /\ f (propertyNameBracketChildThen (listed ["c"; "a,b"]) (new identity))
       commas commas
     = Ok [scalar "c"; scalar "a,b"; scalar "a,b"].
Proof.
  assert (H1 : ["c"; "a,b"] <> []) by discriminate.
  assert (H2 : Forall (fun name => simple name = true) ["c"; "a,b"])
    by (repeat constructor).
  split; [exact H1|]. split; [exact H2|].
  exact (proj2 (propertyNameBracketChild_emits_equal_keys
                  (listed ["c"; "a,b"]) (new identity) commas commas)
               ["c"; "a,b"] H1 H2 eq_refl).
Defined.

(** X17: the bracket-child step over names as written. On a Mapping whose
    content holds its keys and values in pairs, when the text of the step
    is a list of names of ASCII bytes without a quote or a backslash,
    commas allowed, each between single quotes, the step emits, for each
    name in the order written, the value node of every key equal to that
    name in document order, duplicates kept, fed through the next path in
    that order. *)
Theorem bracketChild_emits_the_values_of_the_names_written :
  forall (names : list string) (p : Path) (m root : Node),
    isMapping m = true ->
    Nat.even (List.length (Content m)) = true ->
    names <> [] ->
    Forall (fun name => simple name = true) names ->
    f (bracketChildThen (listed names) p) m root =
    feed (List.flat_map (valuesOf (Content m)) names) p root.
Proof.
  intros names p m root Hm Heven Hne Hnames.
  cbn [f bracketChildThen]. rewrite Hm. cbn [negb].
  rewrite (bracketChildNames_simple names Hne Hnames).
  rewrite (mapM_ext _ (fun name =>
             Ok (List.map (fun v => [v]) (valuesOf (Content m) name)))).
  - rewrite mapM_Ok. cbn [bind]. rewrite compose_feed. f_equal.
    unfold flatten. clear Hne Hnames.
    induction names as [|x names IH]; [reflexivity|].
    cbn [List.map List.concat List.flat_map].
    rewrite concat_app, concat_singletons, IH. reflexivity.
  - intros name. apply (rangeAppend_valuesOf name (Content m) []);
      [reflexivity | exact Heven].
Qed.

Lemma bracketChild_names_written_witness :
  isMapping commas = true
  /\ Nat.even (List.length (Content commas)) = true
  /\ ["c"; "a,b"] <> []
  /\ Forall (fun name => simple name = true) ["c"; "a,b"]
  /\ f (bracketChildThen (listed ["c"; "a,b"]) (new identity)) commas commas
     = Ok [scalar "2"; scalar "1"; scalar "3"].
Proof.
  assert (H1 : ["c"; "a,b"] <> []) by discriminate.
  assert (H2 : Forall (fun name => simple name = true) ["c"; "a,b"])
    by (repeat constructor).
  split; [reflexivity|]. split; [reflexivity|].
  split; [exact H1|]. split; [exact H2|].
  exact (bracketChild_emits_the_values_of_the_names_written
           ["c"; "a,b"] (new identity) commas commas
           eq_refl eq_refl H1 H2).
Defined.

(** ** What the loops of the matchers yield *)

Lemma subnode_trans (x c n : Node) : subnode x c -> subnode c n -> subnode x n.
Proof.
  intros Hx Hc. induction Hc as [d | m c' d Hin Hsub IH]; [exact Hx|].
  apply (subnode_content _ c'); [exact Hin | apply IH; exact Hx].
Qed.

Lemma subnode_child (c n : Node) : In c (Content n) -> subnode c n.
Proof. intros H. apply (subnode_content _ c); [exact H | apply subnode_self]. Qed.

Lemma In_enumerateFrom {A} (s : list A) :
  forall k i a,
    In (i, a) (enumerateFrom k s) -> k <= i /\ nth_error s (i - k) = Some a.
Proof.
  induction s as [|b s IH]; intros k i a H; [contradiction H|].
  cbn [enumerateFrom] in H. destruct H as [E | H].
  - inversion E; subst. rewrite Nat.sub_diag. split; [lia | reflexivity].
  - destruct (IH _ _ _ H) as [Hk Hn]. split; [lia|].
    replace (i - k) with (S (i - S k)) by lia. exact Hn.
Qed.

Lemma In_enumerate {A} (s : list A) (i : nat) (a : A) :
  In (i, a) (enumerate s) -> nth_error s i = Some a /\ In a s.
Proof.
  intros H. destruct (In_enumerateFrom s 0 i a H) as [_ Hn].
  rewrite Nat.sub_0_r in Hn. split; [exact Hn|].
  apply (nth_error_In _ _ Hn).
Qed.

Lemma indexNode_In (s : list Node) (i : nat) (c : Node) :
  indexNode s i = Ok c -> In c s.
Proof.
  unfold indexNode. destruct (nth_error s i) as [n|] eqn:E; [|discriminate].
  intros H. inversion H; subst. apply (nth_error_In _ _ E).
Qed.

Lemma mapM_Forall {A B} (P : B -> Prop) (g : A -> result B) (l : list A) :
  forall bs,
    (forall a b, In a l -> g a = Ok b -> P b) ->
    mapM g l = Ok bs -> Forall P bs.
Proof.
  induction l as [|a l IH]; intros bs HP H.
  - inversion H. constructor.
  - cbn [mapM] in H. destruct (g a) as [b|] eqn:Ea; [|discriminate H].
    cbn [bind] in H. destruct (mapM g l) as [bs'|]; [|discriminate H].
    inversion H; subst. constructor.
    + apply (HP a); [left; reflexivity | exact Ea].
    + apply IH; [|reflexivity]. intros a' b' Hin. apply HP. right. exact Hin.
Qed.

Lemma rangeAppend_Forall {A B} (P : B -> Prop) (cond : nat -> A -> bool)
    (body : nat -> A -> result B) (s : list (nat * A)) :
  forall bs,
    (forall i a b, In (i, a) s -> cond i a = true -> body i a = Ok b -> P b) ->
    rangeAppend cond body s = Ok bs -> Forall P bs.
Proof.
  induction s as [|[i a] s IH]; intros bs HP H.
  - inversion H. constructor.
  - cbn [rangeAppend] in H.
    assert (HP' : forall i' a' b, In (i', a') s -> cond i' a' = true ->
                                  body i' a' = Ok b -> P b)
      by (intros i' a' b Hin; apply HP; right; exact Hin).
    destruct (cond i a) eqn:Ec; [|apply IH; assumption].
    destruct (body i a) as [b|] eqn:Eb; [|discriminate H].
    cbn [bind] in H. destruct (rangeAppend cond body s) as [bs'|];
      [|discriminate H].
    inversion H; subst. constructor.
    + apply (HP i a); [left; reflexivity | exact Ec | exact Eb].
    + apply IH; [exact HP' | reflexivity].
Qed.

Lemma rangeReturn_cases {A B} (cond : nat -> A -> bool) (body : nat -> A -> B)
    (final : B) (s : list (nat * A)) :
  rangeReturn cond body final s = final
  \/ exists i a, In (i, a) s /\ cond i a = true
                 /\ rangeReturn cond body final s = body i a.
Proof.
  induction s as [|[i a] s IH]; [left; reflexivity|].
  cbn [rangeReturn]. destruct (cond i a) eqn:Ec.
  - right. exists i, a. repeat split; [left; reflexivity | exact Ec].
  - destruct IH as [E | [i' [a' [Hin [Hc E]]]]]; [left; exact E|].
    right. exists i', a'. repeat split; [right; exact Hin | exact Hc | exact E].
Qed.

Lemma mapM_safe {A B} (g : A -> result B) (l : list A) :
  (forall a, In a l -> exists b, g a = Ok b) ->
  exists bs, mapM g l = Ok bs.
Proof.
  induction l as [|a l IH]; intros H; [eexists; reflexivity|].
  destruct (H a (or_introl eq_refl)) as [b Hb].
  destruct IH as [bs Hbs]; [intros a' Hin; apply H; right; exact Hin|].
  exists (b :: bs). cbn [mapM]. rewrite Hb, Hbs. reflexivity.
Qed.

Lemma rangeAppend_safe {A B} (cond : nat -> A -> bool)
    (body : nat -> A -> result B) (s : list (nat * A)) :
  (forall i a, In (i, a) s -> cond i a = true -> exists b, body i a = Ok b) ->
  exists bs, rangeAppend cond body s = Ok bs.
Proof.
  induction s as [|[i a] s IH]; intros H; [eexists; reflexivity|].
  destruct IH as [bs Hbs];
    [intros i' a' Hin; apply H; right; exact Hin|].
  cbn [rangeAppend]. destruct (cond i a) eqn:Ec; [|exists bs; exact Hbs].
  destruct (H i a (or_introl eq_refl) Ec) as [b Hb].
  exists (b :: bs). rewrite Hb, Hbs. reflexivity.
Qed.

Lemma Forall_concat_lists {A} (P : A -> Prop) (ls : list (list A)) :
  Forall (Forall P) ls -> Forall P (List.concat ls).
Proof.
  induction 1 as [|l ls Hl Hls IH]; [constructor|].
  cbn [List.concat]. apply Forall_app. split; assumption.
Qed.

Lemma flatten_Forall (P : Node -> Prop) (m : result (list Seq))
    (r : Seq) :
  (forall its, m = Ok its -> Forall (Forall P) its) ->
  (its <- m ;; Ok (flatten its)) = Ok r -> Forall P r.
Proof.
  intros H E. destruct m as [its|]; [|discriminate E].
  cbn [bind] in E. inversion E; subst.
  apply Forall_concat_lists, H. reflexivity.
Qed.

Lemma flatten_safe (m : result (list Seq)) :
  (exists its, m = Ok its) -> exists r, (its <- m ;; Ok (flatten its)) = Ok r.
Proof. intros [its ->]. eexists. reflexivity. Qed.

(** ** The nodes a path yields are nodes of the tree *)

Lemma compose_sound (p : Path) (n : Node) (i : Seq) (root : Node) (r : Seq) :
  sound p ->
  (forall a, In a i -> subnode a n) ->
  compose i p root = Ok r ->
  Forall (fun x => subnode x n /\ initialised x = true) r.
Proof.
  intros Hp Hi H. unfold compose in H.
  refine (flatten_Forall (fun x => subnode x n /\ initialised x = true) _ r _ H).
  intros its E. refine (mapM_Forall _ _ _ its _ E).
  intros a b Hin Hb. cbv beta in Hb.
  refine (Forall_impl _ _ (Hp a root b Hb)).
  intros x [Hx Hinit]. split; [|exact Hinit].
  apply (subnode_trans x a n Hx). apply Hi, Hin.
Qed.

Lemma compose_child_sound (p : Path) (n c root : Node) (r : Seq) :
  sound p -> In c (Content n) ->
  compose (lift [c]) p root = Ok r ->
  Forall (fun x => subnode x n /\ initialised x = true) r.
Proof.
  intros Hp Hc. apply compose_sound; [exact Hp|].
  intros a [<- | []]. apply subnode_child, Hc.
Qed.

Lemma index_compose_sound (p : Path) (n root : Node) (j : nat) (r : Seq) :
  sound p ->
  (c <- indexNode (Content n) j ;; compose (lift [c]) p root) = Ok r ->
  Forall (fun x => subnode x n /\ initialised x = true) r.
Proof.
  intros Hp H. destruct (indexNode (Content n) j) as [c|] eqn:E;
    [|discriminate H].
  cbn [bind] in H. apply (compose_child_sound p n c root r Hp); [|exact H].
  apply (indexNode_In _ _ _ E).
Qed.

Lemma sound_identity : sound (new identity).
Proof.
  intros n root r H. cbn [f] in H. unfold identity in H.
  destruct (yaml.Kind_eqb (Kind n) yaml.ZeroKind) eqn:E;
    inversion H; subst; constructor; [|constructor].
  split; [apply subnode_self|]. unfold initialised. rewrite E. reflexivity.
Qed.

Lemma sound_panic (e : panic) : sound (new (fun _ _ => Panic e)).
Proof. intros n root r H. discriminate H. Qed.

Lemma sound_empty (n root : Node) (r : Seq) :
  empty n root = Ok r ->
  Forall (fun x => subnode x n /\ initialised x = true) r.
Proof. intros H. inversion H. constructor. Qed.

Lemma sound_allChildrenThen (p : Path) : sound p -> sound (allChildrenThen p).
Proof.
  intros Hp n root r H. rewrite allChildrenThen_feed in H.
  rewrite <- compose_feed in H.
  apply (compose_sound p n (children n) root r Hp); [|exact H].
  intros a Ha. apply subnode_child. unfold children in Ha.
  destruct (Kind n); try contradiction Ha; [exact Ha|].
  unfold values in Ha. clear - Ha.
  assert (G : forall (l : list Node) b, In a (alternate b l) -> In a l).
  { induction l as [|x l IH]; intros b Hb; [exact Hb|].
    cbn [alternate] in Hb. destruct b.
    - destruct Hb as [-> | Hb]; [left; reflexivity | right; apply (IH _ Hb)].
    - right. apply (IH _ Hb). }
  apply (G _ _ Ha).
Qed.

Lemma sound_childThen (childName : string) (p : Path) :
  sound p -> sound (childThen childName p).
Proof.
  intros Hp. unfold childThen.
  destruct (String.eqb childName "*"); [apply sound_allChildrenThen, Hp|].
  intros n root r H. cbn [f] in H.
  destruct (negb (isMapping n)); [apply (sound_empty n root r H)|].
  match type of H with
  | rangeReturn ?c ?b ?fin ?s = _ =>
    destruct (rangeReturn_cases c b fin s) as [E | [i [a [_ [_ E]]]]]
  end; rewrite E in H.
  - apply (sound_empty n root r H).
  - apply (index_compose_sound p n root _ r Hp H).
Qed.

Lemma sound_propertyNameChildThen (childName : string) (p : Path) :
  sound p -> sound (propertyNameChildThen childName p).
Proof.
  intros Hp n root r H. cbn [f propertyNameChildThen] in H.
  destruct (negb (isMapping n)); [apply (sound_empty n root r H)|].
  match type of H with
  | rangeReturn ?c ?b ?fin ?s = _ =>
    destruct (rangeReturn_cases c b fin s) as [E | [i [a [_ [_ E]]]]]
  end; rewrite E in H.
  - apply (sound_empty n root r H).
  - apply (index_compose_sound p n root _ r Hp H).
Qed.

Lemma bracket_loops_sound (p : Path) (n root : Node) (r : Seq)
    (names : list string) (cond : string -> nat -> Node -> bool)
    (at_index : nat -> nat) :
  sound p ->
  (its <- mapM (fun childName =>
            rangeAppend (cond childName)
              (fun i _ => c <- indexNode (Content n) (at_index i) ;;
                          Ok (lift [c]))
              (enumerate (Content n)))
          names ;;
   compose (flatten (List.concat its)) p root) = Ok r ->
  Forall (fun x => subnode x n /\ initialised x = true) r.
Proof.
  intros Hp H.
  destruct (mapM _ names) as [its|] eqn:E; [|discriminate H].
  cbn [bind] in H. refine (compose_sound p n _ root r Hp _ H).
  apply (mapM_Forall (Forall (Forall (fun a => In a (Content n))))) in E.
  - intros a Ha. apply subnode_child.
    apply Forall_concat_lists in E. apply Forall_concat_lists in E.
    rewrite Forall_forall in E. apply E, Ha.
  - intros name b _ Hb.
    refine (rangeAppend_Forall _ _ _ _ b _ Hb).
    intros i a' c _ _ Hc.
    destruct (indexNode (Content n) (at_index i)) as [c'|] eqn:Ei;
      [|discriminate Hc].
    inversion Hc; subst. constructor; [|constructor].
    apply (indexNode_In _ _ _ Ei).
Qed.

Lemma sound_bracketChildThen (childNames : string) (p : Path) :
  sound p -> sound (bracketChildThen childNames p).
Proof.
  intros Hp n root r H. cbn [f bracketChildThen] in H.
  destruct (negb (isMapping n)); [apply (sound_empty n root r H)|].
  apply (bracket_loops_sound p n root r _
           (fun name i m => (i mod 2 =? 0) && String.eqb (Value m) name)
           (fun i => i + 1) Hp H).
Qed.

Lemma sound_propertyNameBracketChildThen (childNames : string) (p : Path) :
  sound p -> sound (propertyNameBracketChildThen childNames p).
Proof.
  intros Hp n root r H. cbn [f propertyNameBracketChildThen] in H.
  destruct (negb (isMapping n)); [apply (sound_empty n root r H)|].
  apply (bracket_loops_sound p n root r _
           (fun name i m => (i mod 2 =? 0) && String.eqb (Value m) name)
           (fun i => i) Hp H).
Qed.

Lemma children_loop_sound (p : Path) (n root : Node) (r : Seq)
    (cond : nat -> Node -> bool) :
  sound p ->
  (its <- rangeAppend cond (fun _ c => compose (lift [c]) p root)
            (enumerate (Content n)) ;;
   Ok (flatten its)) = Ok r ->
  Forall (fun x => subnode x n /\ initialised x = true) r.
Proof.
  intros Hp H. refine (flatten_Forall (fun x => subnode x n /\ initialised x = true) _ r _ H).
  intros its E. refine (rangeAppend_Forall _ _ _ _ its _ E).
  intros i a b Hin _ Hb.
  apply (compose_child_sound p n a root b Hp); [|exact Hb].
  apply (In_enumerate _ _ _ Hin).
Qed.

Lemma sound_propertyNameArraySubscriptThen (subscript : string) (p : Path) :
  sound p -> sound (propertyNameArraySubscriptThen subscript p).
Proof.
  intros Hp n root r H. cbn [f propertyNameArraySubscriptThen] in H.
  destruct (isMapping n && String.eqb subscript "*");
    [|apply (sound_empty n root r H)].
  apply (children_loop_sound p n root r _ Hp H).
Qed.

Lemma sound_arraySubscriptThen (subscript : string) (p : Path) :
  sound p -> sound (arraySubscriptThen subscript p).
Proof.
  intros Hp n root r H. cbn [f arraySubscriptThen] in H.
  destruct (isMapping n && String.eqb subscript "*");
    [apply (children_loop_sound p n root r _ Hp H)|].
  destruct (negb (isSequence n)); [apply (sound_empty n root r H)|].
  destruct (slice subscript (List.length (Content n))) as [err|idx];
    [discriminate H|].
  refine (flatten_Forall (fun x => subnode x n /\ initialised x = true) _ r _ H).
  intros its E. refine (rangeAppend_Forall _ _ _ _ its _ E).
  intros i s b _ _ Hb. apply (index_compose_sound p n root _ b Hp Hb).
Qed.

Lemma sound_recursive (p : Path) :
  sound p ->
  sound (new (fun node root => compose (recurse [node]) p root)).
Proof.
  intros Hp n root r H. cbn [f] in H.
  refine (compose_sound p n _ root r Hp _ H).
  intros a Ha. apply In_recurse_subnode, Ha.
Qed.

Lemma sound_root (p : Path) :
  sound p ->
  sound (new (fun node root =>
           node <- (if yaml.Kind_eqb (Kind node) yaml.DocumentNode
                    then indexNode (Content node) 0 else Ok node) ;;
           compose (lift [node]) p root)).
Proof.
  intros Hp n root r H. cbn [f] in H.
  destruct (yaml.Kind_eqb (Kind n) yaml.DocumentNode).
  - apply (index_compose_sound p n root 0 r Hp H).
  - cbn [bind] in H. refine (compose_sound p n _ root r Hp _ H).
    intros a [<- | []]. apply subnode_self.
Qed.

(** ** The compiler: errors, filters, and the paths it builds *)

Lemma filterLexemesLoop_collects (l : lexer) :
  forall acc level filterLexemes rest,
    filterLexemesLoop l acc level = inr (filterLexemes, rest) ->
    exists mid e,
      filterLexemes = acc ++ mid
      /\ l = mid ++ e :: rest
      /\ typ e = lexemeFilterEnd
      /\ Forall (fun lx => collected lx = true) mid
      /\ (level + Z.of_nat (List.length (List.filter isFilterBegin mid))
          - Z.of_nat (List.length (List.filter isFilterEnd mid)) = 1)%Z.
Proof.
  induction l as [|a l IH]; intros acc level fl rest H; [discriminate H|].
  cbn [filterLexemesLoop] in H.
  assert (Hgo : forall level',
             filterLexemesLoop l (acc ++ [a]) level' = inr (fl, rest) ->
             collected a = true ->
             (level + Z.of_nat (List.length (List.filter isFilterBegin [a]))
              - Z.of_nat (List.length (List.filter isFilterEnd [a]))
              = level')%Z ->
             exists mid e,
               fl = acc ++ mid /\ a :: l = mid ++ e :: rest
               /\ typ e = lexemeFilterEnd
               /\ Forall (fun lx => collected lx = true) mid
               /\ (level
                   + Z.of_nat (List.length (List.filter isFilterBegin mid))
                   - Z.of_nat (List.length (List.filter isFilterEnd mid))
                   = 1)%Z).
  { intros level' H' Hc Hl.
    destruct (IH _ _ _ _ H') as [mid [e [E1 [E2 [E3 [E4 E5]]]]]].
    exists (a :: mid), e. split; [rewrite E1, <- app_assoc; reflexivity|].
    split; [rewrite E2; reflexivity|]. split; [exact E3|].
    split; [constructor; assumption|].
    change (a :: mid) with ([a] ++ mid).
    rewrite !filter_app, !length_app, !Nat2Z.inj_add. lia. }
  destruct (typ a) eqn:T; try discriminate H;
    try (apply (Hgo level H);
         [unfold collected; rewrite T; reflexivity
         | cbn [List.filter]; unfold isFilterBegin, isFilterEnd; rewrite T;
           simpl; lia]).
  - apply (Hgo (level + 1)%Z H);
      [unfold collected; rewrite T; reflexivity
      | cbn [List.filter]; unfold isFilterBegin, isFilterEnd; rewrite T;
        simpl; lia].
  - destruct (level - 1 =? 0)%Z eqn:El.
    + inversion H; subst. exists [], a.
      rewrite app_nil_r. repeat split; try assumption; [constructor|].
      apply Z.eqb_eq in El. simpl. lia.
    + apply (Hgo (level - 1)%Z H);
        [unfold collected; rewrite T; reflexivity
        | cbn [List.filter]; unfold isFilterBegin, isFilterEnd; rewrite T;
          simpl; lia].
Qed.

(** X11: when the filter loop of [newPath] succeeds, the stream it read is
    the collected lexemes, then the FilterEnd lexeme that closes the filter,
    then the rest it hands to the compiler of the sub-path; the collected
    lexemes hold no Error and no EOF, and as many nested FilterEnd as
    FilterBegin. *)
Theorem filter_loop_stops_at_the_matching_end :
  forall (l filterLexemes rest : lexer),
    filterLexemesLoop l [] 1%Z = inr (filterLexemes, rest) ->
    exists e,
      typ e = lexemeFilterEnd
      /\ l = filterLexemes ++ e :: rest
      /\ Forall (fun lx => collected lx = true) filterLexemes
      /\ List.length (List.filter isFilterBegin filterLexemes)
         = List.length (List.filter isFilterEnd filterLexemes).
Proof.
  intros l fl rest H.
  destruct (filterLexemesLoop_collects l [] 1%Z fl rest H)
    as [mid [e [E1 [E2 [E3 [E4 E5]]]]]].
  cbn [app] in E1. subst mid. exists e. repeat split; try assumption. lia.
Qed.

Lemma filter_loop_witness :
  filterLexemesLoop
    [mkLexeme lexemeFilterAt "@"; mkLexeme lexemeFilterBegin "[?(";
     mkLexeme lexemeFilterAt "@"; mkLexeme lexemeFilterEnd ")]";
     mkLexeme lexemeFilterEnd ")]"; mkLexeme lexemeDotChild ".name"] [] 1%Z
  = inr ([mkLexeme lexemeFilterAt "@"; mkLexeme lexemeFilterBegin "[?(";
          mkLexeme lexemeFilterAt "@"; mkLexeme lexemeFilterEnd ")]"],
         [mkLexeme lexemeDotChild ".name"])
  /\ exists e,
       typ e = lexemeFilterEnd
       /\ [mkLexeme lexemeFilterAt "@"; mkLexeme lexemeFilterBegin "[?(";
           mkLexeme lexemeFilterAt "@"; mkLexeme lexemeFilterEnd ")]";
           mkLexeme lexemeFilterEnd ")]"; mkLexeme lexemeDotChild ".name"]
          = [mkLexeme lexemeFilterAt "@"; mkLexeme lexemeFilterBegin "[?(";
             mkLexeme lexemeFilterAt "@"; mkLexeme lexemeFilterEnd ")]"]
              ++ e :: [mkLexeme lexemeDotChild ".name"]
       /\ Forall (fun lx => collected lx = true)
            [mkLexeme lexemeFilterAt "@"; mkLexeme lexemeFilterBegin "[?(";
             mkLexeme lexemeFilterAt "@"; mkLexeme lexemeFilterEnd ")]"]
       /\ List.length
            (List.filter isFilterBegin
               [mkLexeme lexemeFilterAt "@"; mkLexeme lexemeFilterBegin "[?(";
                mkLexeme lexemeFilterAt "@"; mkLexeme lexemeFilterEnd ")]"])
          = List.length
              (List.filter isFilterEnd
                 [mkLexeme lexemeFilterAt "@"; mkLexeme lexemeFilterBegin "[?(";
                  mkLexeme lexemeFilterAt "@"; mkLexeme lexemeFilterEnd ")]"]).
Proof.
  split; [reflexivity|].
  apply (filter_loop_stops_at_the_matching_end
           [mkLexeme lexemeFilterAt "@"; mkLexeme lexemeFilterBegin "[?(";
            mkLexeme lexemeFilterAt "@"; mkLexeme lexemeFilterEnd ")]";
            mkLexeme lexemeFilterEnd ")]"; mkLexeme lexemeDotChild ".name"]
           [mkLexeme lexemeFilterAt "@"; mkLexeme lexemeFilterBegin "[?(";
            mkLexeme lexemeFilterAt "@"; mkLexeme lexemeFilterEnd ")]"]
           [mkLexeme lexemeDotChild ".name"]).
  reflexivity.
Defined.

Lemma filterLexemesLoop_unterminated (l : lexer) :
  forall acc level,
    Forall (fun lx => isFilterEnd lx = false /\ typ lx <> lexemeError) l ->
    filterLexemesLoop l acc level = inl "missing end of filter".
Proof.
  induction l as [|a l IH]; intros acc level H; [reflexivity|].
  inversion H as [|a' l' [Ha Ha'] Hl]; subst.
  cbn [filterLexemesLoop]. unfold isFilterEnd in Ha.
  destruct (typ a); try discriminate Ha; try (apply IH; exact Hl);
    try reflexivity.
  contradiction Ha'. reflexivity.
Qed.

Lemma withSubPath_snd (sub : option Path * option error) (k : Path -> Path) :
  snd (withSubPath sub k) = snd sub.
Proof. destruct sub as [subPath [err|]]; reflexivity. Qed.

Lemma withSubPath_sound (sub : option Path * option error)
    (k : Path -> Path) :
  (forall q, sound q -> sound (k q)) ->
  sound (deref (fst sub)) ->
  sound (deref (fst (withSubPath sub k))).
Proof.
  intros Hk Hsub. destruct sub as [subPath [err|]]; cbn [withSubPath fst deref].
  - apply sound_panic.
  - apply Hk. exact Hsub.
Qed.

Section Evaluation.

Variable filterNode : Type.
Variable newFilterNode : list lexeme -> filterNode.
Variable newFilter : filterNode -> Filter.

Local Notation "'compile'" := (newPath filterNode newFilterNode newFilter).

Lemma newPath_step (lx : lexeme) :
  isStep lx = true ->
  exists k, forall l, compile (lx :: l) = withSubPath (compile l) k.
Proof.
  destruct lx as [t v]. unfold isStep. cbn [typ].
  destruct t; try discriminate; intros _; eexists; intros l; reflexivity.
Qed.

(** X9: a chain of steps that hold no filter hands on the outcome of the
    compilation of what follows it. The error of the rest of the stream, if
    any, comes back unchanged as the error of the whole path, and the chain
    compiles to a Path exactly when the rest does. *)
Theorem steps_hand_on_the_error_of_the_rest :
  forall (pre l : lexer),
    Forall (fun lx => isStep lx = true) pre ->
    snd (compile (pre ++ l)) = snd (compile l)
    /\ ((exists p, compile (pre ++ l) = (Some p, None))
        <-> (exists q, compile l = (Some q, None))).
Proof.
  intros pre l H. induction H as [|lx pre Hlx Hpre [IH1 IH2]].
  - split; [reflexivity | tauto].
  - destruct (newPath_step lx Hlx) as [k Hk].
    cbn [app]. rewrite Hk. split.
    + rewrite withSubPath_snd. exact IH1.
    + destruct (compile (pre ++ l)) as [sp [e|]] eqn:E; cbn [withSubPath].
      * split; [intros [p Hp]; discriminate Hp|].
        intros Hq. apply IH2 in Hq. destruct Hq as [p Hp]. discriminate Hp.
      * split; [intros _|intros _; eexists; reflexivity].
        cbn [snd] in IH1.
        destruct (newPath_definite filterNode newFilterNode newFilter l)
          as [[q Hq] | [e He]].
        -- exists q. exact Hq.
        -- rewrite He in IH1. discriminate IH1.
Qed.

(** X10: a filter that is not closed is a compile error. When the stream
    after a FilterBegin or RecursiveFilterBegin lexeme holds no FilterEnd
    and no Error lexeme, [newPath] returns the error "missing end of
    filter" and no Path. *)
Theorem unterminated_filter_is_an_error :
  forall (open : lexeme) (l : lexer),
    typ open = lexemeFilterBegin \/ typ open = lexemeRecursiveFilterBegin ->
    Forall (fun lx => isFilterEnd lx = false /\ typ lx <> lexemeError) l ->
    compile (open :: l) = (None, Some "missing end of filter").
Proof.
  intros open l Hopen Hl.
  rewrite (newPath_filter filterNode newFilterNode newFilter open l Hopen).
  rewrite (filterLexemesLoop_unterminated l [] 1%Z Hl). reflexivity.
Qed.

Lemma sound_filterThen (filterLexemes : list lexeme) (p : Path) :
  sound p ->
  sound (filterThen filterNode newFilterNode newFilter filterLexemes p).
Proof.
  intros Hp n root r H. cbn [f filterThen] in H.
  destruct (isSequence n).
  - apply (children_loop_sound p n root r _ Hp H).
  - destruct (newFilter (newFilterNode filterLexemes) n root);
      [|inversion H; constructor].
    destruct (compose (lift [n]) p root) as [s|] eqn:E; [|discriminate H].
    cbn [bind flatten List.concat] in H. rewrite app_nil_r in H.
    inversion H; subst.
    refine (compose_sound p n _ root r Hp _ E).
    intros a [<- | []]. apply subnode_self.
Qed.

Lemma sound_recursiveFilterThen (filterLexemes : list lexeme) (p : Path) :
  sound p ->
  sound (recursiveFilterThen filterNode newFilterNode newFilter
           filterLexemes p).
Proof.
  intros Hp n root r H. cbn [f recursiveFilterThen] in H.
  destruct (newFilter (newFilterNode filterLexemes) n root);
    [|inversion H; constructor].
  destruct (compose (lift [n]) p root) as [s|] eqn:E; [|discriminate H].
  cbn [bind flatten List.concat] in H. rewrite app_nil_r in H.
  inversion H; subst.
  refine (compose_sound p n _ root r Hp _ E).
  intros a [<- | []]. apply subnode_self.
Qed.

Lemma newPath_sound (l : lexer) : sound (deref (fst (compile l))).
Proof.
  induction l as [l IH] using (induction_ltof1 _ (@List.length lexeme)).
  unfold ltof in IH.
  destruct l as [|[t v] l]; [apply sound_identity|].
  assert (IHl : sound (deref (fst (compile l)))) by (apply IH; simpl; lia).
  destruct t;
    try (cbn [newPath typ fst deref]; apply sound_panic);
    try (cbn [newPath typ fst deref]; apply sound_identity);
    try (cbn [newPath typ]; apply withSubPath_sound; [intros q Hq | exact IHl]).
  - apply sound_root, Hq.
  - apply sound_childThen, Hq.
  - apply sound_childThen, Hq.
  - apply sound_bracketChildThen, Hq.
  - apply sound_arraySubscriptThen, Hq.
  - cbn [val]. cbv beta zeta.
    destruct (String.eqb (strings.TrimPrefix v "..") "*");
      [apply sound_recursive, sound_allChildrenThen, Hq|].
    destruct (String.eqb (strings.TrimPrefix v "..") EmptyString);
      [apply sound_recursive, Hq | apply sound_recursive, sound_childThen, Hq].
  - rewrite newPath_filter by (left; reflexivity).
    destruct (filterLexemesLoop l [] 1%Z) as [e | [fl rest]] eqn:E;
      [apply sound_panic|].
    apply withSubPath_sound.
    + intros q Hq. unfold isRecursive. cbn [typ]. apply sound_filterThen, Hq.
    + apply IH. destruct (filterLexemesLoop_collects _ _ _ _ _ E)
        as [mid [e [_ [-> _]]]].
      cbn [List.length]. rewrite length_app. simpl. lia.
  - rewrite newPath_filter by (right; reflexivity).
    destruct (filterLexemesLoop l [] 1%Z) as [e | [fl rest]] eqn:E;
      [apply sound_panic|].
    apply withSubPath_sound.
    + intros q Hq. unfold isRecursive. cbn [typ].
      apply sound_recursiveFilterThen, Hq.
    + apply IH. destruct (filterLexemesLoop_collects _ _ _ _ _ E)
        as [mid [e [_ [-> _]]]].
      cbn [List.length]. rewrite length_app. simpl. lia.
  - apply sound_propertyNameChildThen, Hq.
  - apply sound_propertyNameBracketChildThen, Hq.
  - apply sound_propertyNameArraySubscriptThen, Hq.
Qed.

(** X12: [Find] only returns nodes of the tree it is given. For every Path
    that [newPath] compiles and every node, each node of the result is the
    node itself or one of its transitive descendants, and is no
    uninitialised node. *)
Theorem Find_returns_nodes_of_the_tree :
  forall (l : lexer) (p : Path) (node : Node) (r : list Node),
    compile l = (Some p, None) ->
    Find p node = Ok (r, None) ->
    Forall (fun x => subnode x node /\ initialised x = true) r.
Proof.
  intros l p node r Hl H. pose proof (newPath_sound l) as Hs.
  rewrite Hl in Hs. cbn [fst deref] in Hs.
  unfold Find, find in H.
  destruct (f p node node) as [r'|] eqn:E; [|discriminate H].
  inversion H; subst. apply (Hs node node r E).
Qed.

End Evaluation.

Lemma steps_witness :
  Forall (fun lx => isStep lx = true)
    [mkLexeme lexemeRoot "$"; mkLexeme lexemeDotChild ".a"]
  /\ snd (newPath (list lexeme) (fun l => l) sampleFilter
            ([mkLexeme lexemeRoot "$"; mkLexeme lexemeDotChild ".a"]
               ++ [mkLexeme lexemeError "bad"]))
     = snd (newPath (list lexeme) (fun l => l) sampleFilter
              [mkLexeme lexemeError "bad"])
  /\ ((exists p,
         newPath (list lexeme) (fun l => l) sampleFilter
           ([mkLexeme lexemeRoot "$"; mkLexeme lexemeDotChild ".a"]
              ++ [mkLexeme lexemeError "bad"]) = (Some p, None))
      <-> (exists q,
             newPath (list lexeme) (fun l => l) sampleFilter
               [mkLexeme lexemeError "bad"] = (Some q, None))).
Proof.
  assert (H : Forall (fun lx => isStep lx = true)
                [mkLexeme lexemeRoot "$"; mkLexeme lexemeDotChild ".a"])
    by (repeat constructor).
  split; [exact H|].
  apply (steps_hand_on_the_error_of_the_rest
           (list lexeme) (fun l => l) sampleFilter
           [mkLexeme lexemeRoot "$"; mkLexeme lexemeDotChild ".a"]
           [mkLexeme lexemeError "bad"] H).
Defined.

Lemma unterminated_filter_witness :
  (typ (mkLexeme lexemeFilterBegin "[?(") = lexemeFilterBegin
   \/ typ (mkLexeme lexemeFilterBegin "[?(") = lexemeRecursiveFilterBegin)
  /\ Forall (fun lx => isFilterEnd lx = false /\ typ lx <> lexemeError)
       [mkLexeme lexemeFilterAt "@"; mkLexeme lexemeDotChild ".a"]
  /\ newPath (list lexeme) (fun l => l) sampleFilter
       (mkLexeme lexemeFilterBegin "[?("
          :: [mkLexeme lexemeFilterAt "@"; mkLexeme lexemeDotChild ".a"])
     = (None, Some "missing end of filter").
Proof.
  assert (H1 : typ (mkLexeme lexemeFilterBegin "[?(") = lexemeFilterBegin
               \/ typ (mkLexeme lexemeFilterBegin "[?(")
                  = lexemeRecursiveFilterBegin)
    by (left; reflexivity).
  assert (H2 : Forall (fun lx => isFilterEnd lx = false
                                 /\ typ lx <> lexemeError)
                 [mkLexeme lexemeFilterAt "@"; mkLexeme lexemeDotChild ".a"])
    by (repeat constructor; discriminate).
  split; [exact H1|]. split; [exact H2|].
  apply (unterminated_filter_is_an_error
           (list lexeme) (fun l => l) sampleFilter
           (mkLexeme lexemeFilterBegin "[?(")
           [mkLexeme lexemeFilterAt "@"; mkLexeme lexemeDotChild ".a"] H1 H2).
Defined.

Lemma Find_returns_nodes_witness :
  newPath (list lexeme) (fun l => l) sampleFilter
    [mkLexeme lexemeDotChild ".a"] = (Some (childThen "a" (new identity)), None)
  /\ Find (childThen "a" (new identity)) sample
     = Ok ([sequence [scalar "x"; scalar "y"]], None)
  /\ Forall (fun x => subnode x sample /\ initialised x = true)
       [sequence [scalar "x"; scalar "y"]].
Proof.
  split; [reflexivity|]. split; [reflexivity|].
  apply (Find_returns_nodes_of_the_tree
           (list lexeme) (fun l => l) sampleFilter
           [mkLexeme lexemeDotChild ".a"] (childThen "a" (new identity))
           sample [sequence [scalar "x"; scalar "y"]] eq_refl eq_refl).
Defined.

(** ** Well-formed trees: evaluation without a panic *)

Lemma wellFormed_unfold (n : Node) :
  wellFormed n =
  match Kind n with
  | yaml.DocumentNode => negb (List.length (Content n) =? 0)
  | yaml.MappingNode => Nat.even (List.length (Content n))
  | _ => true
  end
  && List.forallb wellFormed (Content n).
Proof.
  destruct n as [k t v content]. reflexivity.
Qed.

Lemma wellFormed_content (n c : Node) :
  wellFormed n = true -> In c (Content n) -> wellFormed c = true.
Proof.
  rewrite wellFormed_unfold. intros H Hc. apply andb_true_iff in H.
  destruct H as [_ H]. rewrite forallb_forall in H. apply H, Hc.
Qed.

Lemma wellFormed_subnode (x n : Node) :
  subnode x n -> wellFormed n = true -> wellFormed x = true.
Proof.
  induction 1 as [d | m c d Hin Hsub IH]; intros H; [exact H|].
  apply IH. apply (wellFormed_content d c H Hin).
Qed.

Lemma wellFormed_mapping (n : Node) :
  wellFormed n = true -> isMapping n = true ->
  Nat.even (List.length (Content n)) = true.
Proof.
  rewrite wellFormed_unfold. unfold isMapping. intros H Hm.
  apply andb_true_iff in H. destruct H as [H _].
  destruct (Kind n); try discriminate Hm. exact H.
Qed.

Lemma wellFormed_document (n : Node) :
  wellFormed n = true -> yaml.Kind_eqb (Kind n) yaml.DocumentNode = true ->
  0 < List.length (Content n).
Proof.
  rewrite wellFormed_unfold. intros H Hd.
  apply andb_true_iff in H. destruct H as [H _].
  destruct (Kind n); try discriminate Hd.
  apply negb_true_iff, Nat.eqb_neq in H. lia.
Qed.

Lemma compose_safe (p : Path) (i : Seq) (root : Node) :
  safe p ->
  (forall a, In a i -> wellFormed a = true) ->
  exists r, compose i p root = Ok r.
Proof.
  intros Hp Hi. unfold compose. apply flatten_safe, mapM_safe.
  intros a Ha. apply Hp, Hi, Ha.
Qed.

Lemma index_compose_safe (p : Path) (n root : Node) (j : nat) :
  safe p -> wellFormed n = true -> j < List.length (Content n) ->
  exists r, (c <- indexNode (Content n) j ;; compose (lift [c]) p root) = Ok r.
Proof.
  intros Hp Hn Hj. unfold indexNode.
  destruct (nth_error (Content n) j) as [c|] eqn:E.
  - cbn [bind]. apply compose_safe; [exact Hp|].
    intros a [<- | []]. apply (wellFormed_content n c Hn).
    apply (nth_error_In _ _ E).
  - apply nth_error_None in E. lia.
Qed.

Lemma rangeReturn_safe {A B} (cond : nat -> A -> bool)
    (body : nat -> A -> result B) (final : result B) (s : list (nat * A)) :
  (exists b, final = Ok b) ->
  (forall i a, In (i, a) s -> cond i a = true -> exists b, body i a = Ok b) ->
  exists b, rangeReturn cond body final s = Ok b.
Proof.
  intros Hf Hb.
  destruct (rangeReturn_cases cond body final s)
    as [E | [i [a [Hin [Hc E]]]]]; rewrite E.
  - exact Hf.
  - apply (Hb i a Hin Hc).
Qed.

Lemma value_index (content : list Node) (i : nat) (a : Node) :
  Nat.even (List.length content) = true ->
  In (i, a) (enumerate content) ->
  (i mod 2 =? 0) = true ->
  i + 1 < List.length content.
Proof.
  intros Heven Hin Hi. destruct (In_enumerate _ _ _ Hin) as [Hn _].
  assert (Hlt : i < List.length content)
    by (apply nth_error_Some; rewrite Hn; discriminate).
  rewrite mod2_even in Hi.
  apply Nat.even_spec in Heven. apply Nat.even_spec in Hi.
  destruct Heven as [a' Ha], Hi as [b' Hb]. lia.
Qed.

Lemma key_index (content : list Node) (i : nat) (a : Node) :
  In (i, a) (enumerate content) -> i < List.length content.
Proof.
  intros Hin. destruct (In_enumerate _ _ _ Hin) as [Hn _].
  apply nth_error_Some. rewrite Hn. discriminate.
Qed.

Lemma safe_identity : safe (new identity).
Proof.
  intros n root _. cbn [f]. unfold identity.
  destruct (yaml.Kind_eqb (Kind n) yaml.ZeroKind); eexists; reflexivity.
Qed.

Lemma In_alternate {A} (a : A) (l : list A) :
  forall b, In a (alternate b l) -> In a l.
Proof.
  induction l as [|x l IH]; intros b Hb; [exact Hb|].
  cbn [alternate] in Hb. destruct b.
  - destruct Hb as [-> | Hb]; [left; reflexivity | right; apply (IH _ Hb)].
  - right. apply (IH _ Hb).
Qed.

Lemma children_In (n c : Node) : In c (children n) -> In c (Content n).
Proof.
  unfold children. destruct (Kind n); try contradiction; [tauto|].
  apply In_alternate.
Qed.

Lemma children_wellFormed (n c : Node) :
  wellFormed n = true -> In c (children n) -> wellFormed c = true.
Proof.
  intros Hn Hc. apply (wellFormed_content n c Hn), children_In, Hc.
Qed.

Lemma safe_allChildrenThen (p : Path) : safe p -> safe (allChildrenThen p).
Proof.
  intros Hp n root Hn. rewrite allChildrenThen_feed, <- compose_feed.
  apply compose_safe; [exact Hp|].
  intros a Ha. apply (children_wellFormed n a Hn Ha).
Qed.

Lemma safe_childThen (childName : string) (p : Path) :
  safe p -> safe (childThen childName p).
Proof.
  intros Hp. unfold childThen.
  destruct (String.eqb childName "*"); [apply safe_allChildrenThen, Hp|].
  intros n root Hn. cbn [f].
  destruct (isMapping n) eqn:Hm; [|eexists; reflexivity]. cbn [negb].
  apply rangeReturn_safe; [eexists; reflexivity|].
  intros i a Hin Hc. apply andb_true_iff in Hc. destruct Hc as [Hi _].
  apply (index_compose_safe p n root _ Hp Hn).
  apply (value_index _ i a (wellFormed_mapping n Hn Hm) Hin Hi).
Qed.

Lemma safe_propertyNameChildThen (childName : string) (p : Path) :
  safe p -> safe (propertyNameChildThen childName p).
Proof.
  intros Hp n root Hn. cbn [f propertyNameChildThen].
  destruct (isMapping n) eqn:Hm; [|eexists; reflexivity]. cbn [negb].
  apply rangeReturn_safe; [eexists; reflexivity|].
  intros i a Hin _.
  apply (index_compose_safe p n root _ Hp Hn), (key_index _ i a Hin).
Qed.

Lemma bracket_loops_safe (p : Path) (n root : Node) (names : list string)
    (at_index : nat -> nat) :
  safe p -> wellFormed n = true ->
  (forall i a, In (i, a) (enumerate (Content n)) ->
               (i mod 2 =? 0) = true ->
               at_index i < List.length (Content n)) ->
  exists r,
    (its <- mapM (fun childName =>
              rangeAppend
                (fun i m => (i mod 2 =? 0) && String.eqb (Value m) childName)
                (fun i _ => c <- indexNode (Content n) (at_index i) ;;
                            Ok (lift [c]))
                (enumerate (Content n)))
            names ;;
     compose (flatten (List.concat its)) p root) = Ok r.
Proof.
  intros Hp Hn Hidx.
  destruct (mapM_safe
              (fun childName =>
                 rangeAppend
                   (fun i m => (i mod 2 =? 0) && String.eqb (Value m) childName)
                   (fun i _ => c <- indexNode (Content n) (at_index i) ;;
                               Ok (lift [c]))
                   (enumerate (Content n))) names) as [its E].
  - intros name _. apply rangeAppend_safe. intros i a Hin Hc.
    apply andb_true_iff in Hc. destruct Hc as [Hi _].
    unfold indexNode.
    destruct (nth_error (Content n) (at_index i)) eqn:En;
      [eexists; reflexivity|].
    apply nth_error_None in En. specialize (Hidx i a Hin Hi). lia.
  - rewrite E. cbn [bind]. apply compose_safe; [exact Hp|].
    apply (mapM_Forall (Forall (Forall (fun a => In a (Content n))))) in E.
    + intros a Ha. apply (wellFormed_content n a Hn).
      apply Forall_concat_lists in E. apply Forall_concat_lists in E.
      rewrite Forall_forall in E. apply E, Ha.
    + intros name b _ Hb.
      refine (rangeAppend_Forall _ _ _ _ b _ Hb).
      intros i a' c _ _ Hc.
      destruct (indexNode (Content n) (at_index i)) as [c'|] eqn:Ei;
        [|discriminate Hc].
      inversion Hc; subst. constructor; [|constructor].
      apply (indexNode_In _ _ _ Ei).
Qed.

Lemma safe_bracketChildThen (childNames : string) (p : Path) :
  safe p -> safe (bracketChildThen childNames p).
Proof.
  intros Hp n root Hn. cbn [f bracketChildThen].
  destruct (isMapping n) eqn:Hm; [|eexists; reflexivity]. cbn [negb].
  apply (bracket_loops_safe p n root _ (fun i => i + 1) Hp Hn).
  intros i a Hin Hi.
  apply (value_index _ i a (wellFormed_mapping n Hn Hm) Hin Hi).
Qed.

Lemma safe_propertyNameBracketChildThen (childNames : string) (p : Path) :
  safe p -> safe (propertyNameBracketChildThen childNames p).
Proof.
  intros Hp n root Hn. cbn [f propertyNameBracketChildThen].
  destruct (isMapping n) eqn:Hm; [|eexists; reflexivity]. cbn [negb].
  apply (bracket_loops_safe p n root _ (fun i => i) Hp Hn).
  intros i a Hin _. apply (key_index _ i a Hin).
Qed.

Lemma children_loop_safe (p : Path) (n root : Node)
    (cond : nat -> Node -> bool) :
  safe p -> wellFormed n = true ->
  exists r,
    (its <- rangeAppend cond (fun _ c => compose (lift [c]) p root)
              (enumerate (Content n)) ;;
     Ok (flatten its)) = Ok r.
Proof.
  intros Hp Hn. apply flatten_safe, rangeAppend_safe.
  intros i a Hin _. apply compose_safe; [exact Hp|].
  intros c [<- | []]. apply (wellFormed_content n a Hn).
  apply (In_enumerate _ _ _ Hin).
Qed.

Lemma safe_propertyNameArraySubscriptThen (subscript : string) (p : Path) :
  safe p -> safe (propertyNameArraySubscriptThen subscript p).
Proof.
  intros Hp n root Hn. cbn [f propertyNameArraySubscriptThen].
  destruct (isMapping n && String.eqb subscript "*");
    [|eexists; reflexivity].
  apply (children_loop_safe p n root _ Hp Hn).
Qed.

Lemma safe_arraySubscriptThen (subscript : string) (p : Path) :
  accepted subscript -> safe p -> safe (arraySubscriptThen subscript p).
Proof.
  intros Hacc Hp n root Hn. cbn [f arraySubscriptThen].
  destruct (isMapping n && String.eqb subscript "*");
    [apply (children_loop_safe p n root _ Hp Hn)|].
  destruct (negb (isSequence n)); [eexists; reflexivity|].
  destruct (Hacc (List.length (Content n))) as [idx ->].
  apply flatten_safe, rangeAppend_safe.
  intros i s _ Hc. apply andb_true_iff in Hc. destruct Hc as [H0 H1].
  apply Z.leb_le in H0. apply Z.ltb_lt in H1.
  apply (index_compose_safe p n root _ Hp Hn). lia.
Qed.

Lemma safe_recursive (p : Path) :
  safe p ->
  safe (new (fun node root => compose (recurse [node]) p root)).
Proof.
  intros Hp n root Hn. cbn [f]. apply compose_safe; [exact Hp|].
  intros a Ha. apply In_recurse_subnode in Ha.
  apply (wellFormed_subnode a n Ha Hn).
Qed.

Lemma safe_root (p : Path) :
  safe p ->
  safe (new (fun node root =>
          node <- (if yaml.Kind_eqb (Kind node) yaml.DocumentNode
                   then indexNode (Content node) 0 else Ok node) ;;
          compose (lift [node]) p root)).
Proof.
  intros Hp n root Hn. cbn [f].
  destruct (yaml.Kind_eqb (Kind n) yaml.DocumentNode) eqn:Hd.
  - apply (index_compose_safe p n root 0 Hp Hn).
    apply (wellFormed_document n Hn Hd).
  - cbn [bind]. apply compose_safe; [exact Hp|].
    intros a [<- | []]. exact Hn.
Qed.

Lemma withSubPath_safe (sub : option Path * option error)
    (k : Path -> Path) (p : Path) :
  (forall q, safe q -> safe (k q)) ->
  (forall q, sub = (Some q, None) -> safe q) ->
  definite sub ->
  withSubPath sub k = (Some p, None) -> safe p.
Proof.
  intros Hk Hsub [[q Hq] | [e He]] H; subst sub.
  - cbn in H. inversion H; subst. apply Hk, Hsub. reflexivity.
  - discriminate H.
Qed.

Lemma feed_app (l1 l2 : list Node) (p : Path) (root : Node) :
  feed (l1 ++ l2) p root =
  (a <- feed l1 p root ;; b <- feed l2 p root ;; Ok (a ++ b)).
Proof.
  induction l1 as [|x l1 IH].
  - cbn [app]. change (feed [] p root) with (Ok (@nil Node)). cbn [bind].
    destruct (feed l2 p root); reflexivity.
  - cbn [app]. rewrite !feed_cons, IH.
    destruct (f p x root); [|reflexivity]. cbn [bind].
    destruct (feed l1 p root); [|reflexivity]. cbn [bind].
    destruct (feed l2 p root); [|reflexivity]. cbn [bind].
    rewrite app_assoc. reflexivity.
Qed.

Lemma feed_flat_map (g : Node -> list Node) (p q : Path) (l : list Node)
    (root : Node) :
  (forall a, In a l -> f q a root = feed (g a) p root) ->
  feed l q root = feed (List.flat_map g l) p root.
Proof.
  induction l as [|a l IH]; intros H; [reflexivity|].
  cbn [List.flat_map]. rewrite feed_cons, feed_app.
  rewrite (H a (or_introl eq_refl)), IH; [reflexivity|].
  intros a' Hin. apply H. right. exact Hin.
Qed.

(** X15: [compose] over a sequence that is the concatenation of two is the
    composition over the first followed by the composition over the second,
    the results appended; a panic in the first part comes first. *)
Theorem compose_distributes_over_concatenation :
  forall (i j : Seq) (p : Path) (root : Node),
    compose (i ++ j) p root =
    (a <- compose i p root ;; b <- compose j p root ;; Ok (a ++ b)).
Proof.
  intros i j p root. rewrite !compose_feed. apply feed_app.
Qed.

Lemma TrimPrefix_append (prefix s : string) :
  strings.TrimPrefix (prefix ++ s) prefix = s.
Proof.
  unfold strings.TrimPrefix.
  replace (strings.HasPrefix (prefix ++ s) prefix) with true.
  - apply drop_append.
  - symmetry. induction prefix as [|c prefix IH]; [destruct s; reflexivity|].
    cbn [append strings.HasPrefix]. rewrite Ascii.eqb_refl. exact IH.
Qed.

Section Safety.

Variable filterNode : Type.
Variable newFilterNode : list lexeme -> filterNode.
Variable newFilter : filterNode -> Filter.

Local Notation "'compile'" := (newPath filterNode newFilterNode newFilter).

Lemma safe_filterThen (filterLexemes : list lexeme) (p : Path) :
  safe p ->
  safe (filterThen filterNode newFilterNode newFilter filterLexemes p).
Proof.
  intros Hp n root Hn. cbn [f filterThen].
  destruct (isSequence n).
  - apply (children_loop_safe p n root _ Hp Hn).
  - destruct (newFilter (newFilterNode filterLexemes) n root);
      [|eexists; reflexivity].
    destruct (compose_safe p (lift [n]) root Hp) as [s Hs].
    + intros a [<- | []]. exact Hn.
    + rewrite Hs. eexists. reflexivity.
Qed.

Lemma safe_recursiveFilterThen (filterLexemes : list lexeme) (p : Path) :
  safe p ->
  safe (recursiveFilterThen filterNode newFilterNode newFilter
          filterLexemes p).
Proof.
  intros Hp n root Hn. cbn [f recursiveFilterThen].
  destruct (newFilter (newFilterNode filterLexemes) n root);
    [|eexists; reflexivity].
  destruct (compose_safe p (lift [n]) root Hp) as [s Hs].
  - intros a [<- | []]. exact Hn.
  - rewrite Hs. eexists. reflexivity.
Qed.

Lemma newPath_safe (l : lexer) :
  acceptedSubscripts l ->
  forall p, compile l = (Some p, None) -> safe p.
Proof.
  induction l as [l IH] using (induction_ltof1 _ (@List.length lexeme)).
  unfold ltof in IH. intros Hacc p Hp.
  destruct l as [|[t v] l];
    [inversion Hp; subst; apply safe_identity|].
  inversion Hacc as [|lx l' Hlx Hl]; subst. cbn [typ val] in Hlx.
  assert (IHl : forall q, compile l = (Some q, None) -> safe q)
    by (intros q; apply IH; [simpl; lia | exact Hl]).
  pose proof (newPath_definite filterNode newFilterNode newFilter l) as Hdef.
  destruct t; cbn [newPath typ] in Hp;
    try discriminate Hp;
    try (inversion Hp; subst; apply safe_identity);
    try (refine (withSubPath_safe _ _ p _ IHl Hdef Hp); intros q Hq).
  - apply safe_root, Hq.
  - apply safe_childThen, Hq.
  - apply safe_childThen, Hq.
  - apply safe_bracketChildThen, Hq.
  - apply safe_arraySubscriptThen; [apply Hlx; reflexivity | exact Hq].
  - cbn [val]. cbv beta zeta.
    destruct (String.eqb (strings.TrimPrefix v "..") "*");
      [apply safe_recursive, safe_allChildrenThen, Hq|].
    destruct (String.eqb (strings.TrimPrefix v "..") EmptyString);
      [apply safe_recursive, Hq | apply safe_recursive, safe_childThen, Hq].
  - change (compile (mkLexeme lexemeFilterBegin v :: l) = (Some p, None)) in Hp.
    rewrite newPath_filter in Hp by (left; reflexivity).
    destruct (filterLexemesLoop l [] 1%Z) as [e | [fl rest]] eqn:E;
      [discriminate Hp|].
    destruct (filterLexemesLoop_collects _ _ _ _ _ E)
      as [mid [e [_ [El _]]]].
    refine (withSubPath_safe _ _ p _ _
              (newPath_definite filterNode newFilterNode newFilter rest) Hp).
    + intros q Hq. unfold isRecursive. cbn [typ]. apply safe_filterThen, Hq.
    + intros q. apply IH.
      * rewrite El. cbn [List.length]. rewrite length_app. simpl. lia.
      * rewrite El in Hl. apply Forall_app in Hl. destruct Hl as [_ Hl].
        inversion Hl; assumption.
  - change (compile (mkLexeme lexemeRecursiveFilterBegin v :: l)
            = (Some p, None)) in Hp.
    rewrite newPath_filter in Hp by (right; reflexivity).
    destruct (filterLexemesLoop l [] 1%Z) as [e | [fl rest]] eqn:E;
      [discriminate Hp|].
    destruct (filterLexemesLoop_collects _ _ _ _ _ E)
      as [mid [e [_ [El _]]]].
    refine (withSubPath_safe _ _ p _ _
              (newPath_definite filterNode newFilterNode newFilter rest) Hp).
    + intros q Hq. unfold isRecursive. cbn [typ].
      apply safe_recursiveFilterThen, Hq.
    + intros q. apply IH.
      * rewrite El. cbn [List.length]. rewrite length_app. simpl. lia.
      * rewrite El in Hl. apply Forall_app in Hl. destruct Hl as [_ Hl].
        inversion Hl; assumption.
  - apply safe_propertyNameChildThen, Hq.
  - apply safe_propertyNameBracketChildThen, Hq.
  - apply safe_propertyNameArraySubscriptThen, Hq.
Qed.

(** X13: on a well-formed tree [Find] does not panic. For every Path that
    [newPath] compiles from a lexeme stream whose array subscripts [slice]
    accepts, and every node in whose tree each Document has a root value
    and each Mapping holds its keys and values in pairs, [Find] returns a
    list of nodes and a nil error. *)
Theorem Find_succeeds_on_well_formed_trees :
  forall (l : lexer) (p : Path) (node : Node),
    acceptedSubscripts l ->
    compile l = (Some p, None) ->
    wellFormed node = true ->
    exists r, Find p node = Ok (r, None).
Proof.
  intros l p node Hacc Hp Hn.
  destruct (newPath_safe l Hacc p Hp node node Hn) as [r Hr].
  exists r. unfold Find, find. rewrite Hr. reflexivity.
Qed.

(** X14: the recursive descent to a named child [..name] visits the node
    and its transitive descendants in post-order and, in a well-formed
    tree, emits for each visited Mapping the value of its first key equal
    to the name, each fed through the next path. *)
Theorem recursive_descent_to_a_named_child :
  forall (name : string) (l : lexer) (sub : Path) (node root : Node),
    String.eqb name "*" = false ->
    String.eqb name EmptyString = false ->
    wellFormed node = true ->
    compile l = (Some sub, None) ->
    exists p,
      compile (mkLexeme lexemeRecursiveDescent (".." ++ name) :: l)
      = (Some p, None)
      /\ f p node root =
           feed (List.flat_map (fun m => firstValue m (unescape name))
                   (recurse [node])) sub root.
Proof.
  intros name l sub node root Hstar Hempty Hn Hl.
  eexists. split.
  - cbn [newPath typ val]. rewrite Hl. cbn [withSubPath deref].
    rewrite TrimPrefix_append, Hstar, Hempty. reflexivity.
  - cbn [f]. rewrite compose_feed. apply feed_flat_map.
    intros m Hm. apply In_recurse_subnode in Hm.
    pose proof (wellFormed_subnode m node Hm Hn) as Hwf.
    unfold firstValue. destruct (isMapping m) eqn:Hk.
    + rewrite (childThen_first_value name sub m root Hstar
                 (wellFormed_mapping m Hwf Hk)), Hk.
      destruct (valuesOf (Content m) (unescape name)) as [|v vs];
        [reflexivity|].
      cbn [List.firstn]. symmetry. apply feed_single.
    + unfold childThen. rewrite Hstar. cbn [f]. rewrite Hk. reflexivity.
Qed.

End Safety.

Lemma Find_succeeds_witness :
  acceptedSubscripts
    [mkLexeme lexemeRoot "$"; mkLexeme lexemeDotChild ".a";
     mkLexeme lexemeArraySubscript "[-1]"]
  /\ newPath (list lexeme) (fun l => l) sampleFilter
       [mkLexeme lexemeRoot "$"; mkLexeme lexemeDotChild ".a";
        mkLexeme lexemeArraySubscript "[-1]"]
     = (Some
          (new (fun node root =>
             node <- (if yaml.Kind_eqb (Kind node) yaml.DocumentNode
                      then indexNode (Content node) 0 else Ok node) ;;
             compose (lift [node])
               (childThen "a" (arraySubscriptThen "-1" (new identity)))
               root)), None)
  /\ wellFormed (document [sample]) = true
  /\ exists r,
       Find
         (new (fun node root =>
            node <- (if yaml.Kind_eqb (Kind node) yaml.DocumentNode
                     then indexNode (Content node) 0 else Ok node) ;;
            compose (lift [node])
              (childThen "a" (arraySubscriptThen "-1" (new identity)))
              root))
         (document [sample]) = Ok (r, None).
Proof.
  assert (H : acceptedSubscripts
                [mkLexeme lexemeRoot "$"; mkLexeme lexemeDotChild ".a";
                 mkLexeme lexemeArraySubscript "[-1]"]).
  { repeat constructor; try discriminate.
    intros _ length. eexists. reflexivity. }
  split; [exact H|]. split; [reflexivity|]. split; [reflexivity|].
  apply (Find_succeeds_on_well_formed_trees
           (list lexeme) (fun l => l) sampleFilter
           [mkLexeme lexemeRoot "$"; mkLexeme lexemeDotChild ".a";
            mkLexeme lexemeArraySubscript "[-1]"] _ (document [sample])
           H eq_refl eq_refl).
Defined.

Lemma recursive_descent_to_a_named_child_witness :
  String.eqb "name" "*" = false
  /\ String.eqb "name" EmptyString = false
  /\ wellFormed deployment = true
  /\ newPath (list lexeme) (fun l => l) sampleFilter []
     = (Some (new identity), None)
  /\ exists p,
       newPath (list lexeme) (fun l => l) sampleFilter
         (mkLexeme lexemeRecursiveDescent (".." ++ "name") :: [])
       = (Some p, None)
       /\ f p deployment deployment =
            feed (List.flat_map (fun m => firstValue m (unescape "name"))
                    (recurse [deployment])) (new identity) deployment.
Proof.
  split; [reflexivity|]. split; [reflexivity|]. split; [reflexivity|].
  split; [reflexivity|].
  apply (recursive_descent_to_a_named_child
           (list lexeme) (fun l => l) sampleFilter
           "name" [] (new identity) deployment deployment
           eq_refl eq_refl eq_refl eq_refl).
Defined.

(** ** A double quote inside a single-quoted name *)





